(** * Verification of [init-scripts/download_covid_news.py]

    A shallow embedding of the [NewsTextExtractor] class: the field
    resolvers [_extract_title] and [_extract_author], the archive
    decomposer [_extract_articles_from_archive], the text normalizer
    [_clean_text] and the pipeline [extract_from_unam_global].

    Python strings are sequences of Unicode code points; a character is
    a code point in [N] and a text is a list of them.  The regular
    expressions of [_clean_text] are kept as syntax trees and run by a
    backtracking matcher with the priorities of Python's [re] module. *)

From Stdlib Require Import NArith ZArith Ascii String List Bool Lia Sorted.
From Stdlib Require Import DecimalN.
From stdpp Require Import gmap strings list.
Import ListNotations.

Local Open Scope N_scope.

(** ** Characters and texts *)

Definition char : Type := N.
Definition text : Type := list char.

(** Code points of an ASCII literal. *)
Definition txt (s : string) : text :=
  List.map N_of_ascii (list_ascii_of_string s).

Definition NL : char := 10.
Definition SP : char := 32.
Definition QUOTE : char := 34.

Definition is_nl (c : char) : bool := c =? NL.

(** [str.isspace] on one code point, which is also the class [\s] of a
    [str] pattern: the white space table of CPython. *)
Definition isspace (c : char) : bool :=
  ((9 <=? c) && (c <=? 13)) || ((28 <=? c) && (c <=? 32))
  || (c =? 133) || (c =? 160) || (c =? 5760)
  || ((8192 <=? c) && (c <=? 8202))
  || (c =? 8232) || (c =? 8233) || (c =? 8239) || (c =? 8287)
  || (c =? 12288).

(** ** Python string methods *)

Module Str.

Fixpoint lstrip (s : text) : text :=
  match s with
  | [] => []
  | c :: s' => if isspace c then lstrip s' else s
  end.

Fixpoint rstrip (s : text) : text :=
  match s with
  | [] => []
  | c :: s' =>
      match rstrip s' with
      | [] => if isspace c then [] else [c]
      | r => c :: r
      end
  end.

(** [s.strip()] *)
Definition strip (s : text) : text := rstrip (lstrip s).

(** [sep.join(parts)] *)
Fixpoint join (sep : text) (parts : list text) : text :=
  match parts with
  | [] => []
  | [p] => p
  | p :: rest => p ++ sep ++ join sep rest
  end.

(** [s.split()]: the maximal runs of characters that are not white
    space.  [cur] is the token being read, if any. *)
Fixpoint split_go (cur : option text) (s : text) : list text :=
  match s with
  | [] => match cur with Some w => [w] | None => [] end
  | c :: s' =>
      if isspace c
      then match cur with Some w => w :: split_go None s' | None => split_go None s' end
      else split_go (Some (match cur with Some w => w ++ [c] | None => [c] end)) s'
  end.

Definition split (s : text) : list text := split_go None s.

(** Truth value of a string: non-empty. *)
Definition truthy (s : text) : bool :=
  match s with [] => false | _ :: _ => true end.

(** [c * n] for a one-character string. *)
Definition times (c : char) (n : nat) : text := List.repeat c n.

(** Decimal digits of a [Decimal.uint]. *)
Fixpoint of_uint (d : Decimal.uint) : text :=
  match d with
  | Decimal.Nil => []
  | Decimal.D0 d => 48 :: of_uint d
  | Decimal.D1 d => 49 :: of_uint d
  | Decimal.D2 d => 50 :: of_uint d
  | Decimal.D3 d => 51 :: of_uint d
  | Decimal.D4 d => 52 :: of_uint d
  | Decimal.D5 d => 53 :: of_uint d
  | Decimal.D6 d => 54 :: of_uint d
  | Decimal.D7 d => 55 :: of_uint d
  | Decimal.D8 d => 56 :: of_uint d
  | Decimal.D9 d => 57 :: of_uint d
  end.

(** The f-string field [{n}] for a natural number. *)
Definition of_nat (n : nat) : text := of_uint (Nat.to_uint n).

(** The f-string field [{z:0wd}]: sign, then digits padded with zeros to width [w]. *)
Definition zfill (w : nat) (z : Z) : text :=
  let digits := of_uint (N.to_uint (Z.abs_N z)) in
  let sign := if (z <? 0)%Z then [45] else [] in
  let pad := (w - List.length sign - List.length digits)%nat in
  sign ++ List.repeat 48 pad ++ digits.

End Str.

(** ** Regular expressions

    The fragment of [re] syntax that [_clean_text] uses.  Every starred
    or plussed item in the source is a one-character class, so the
    repetitions carry a class.  [Bol] and [Eol] are [^] and [$] under
    [re.MULTILINE], the only way the source uses them. *)

Inductive regex : Type :=
| Lit (l : text)                 (* a literal string *)
| Cls (p : char -> bool)         (* one character of a class *)
| StarG (p : char -> bool)       (* [p*], greedy *)
| StarL (p : char -> bool)       (* [p*?], lazy *)
| Bol                            (* [^] with MULTILINE *)
| Eol                            (* [$] with MULTILINE *)
| Seq (a b : regex)
| Alt (a b : regex).

Declare Scope regex_scope.
Delimit Scope regex_scope with re.
Bind Scope regex_scope with regex.
Notation "a >- b" := (Seq a b) (at level 60, right associativity) : regex_scope.

(** [.] with and without [re.DOTALL]. *)
Definition any : char -> bool := fun _ => true.
Definition dot : char -> bool := fun c => negb (is_nl c).

(** [\s+] *)
Definition ws_plus : regex := Seq (Cls isspace) (StarG isspace).

Module Re.

(** A match result: the character before the position reached (for
    [^]) and the rest of the subject. *)
Definition result : Type := option (option char * text).
Definition cont : Type := option char -> text -> result.

Fixpoint lit (l : text) (k : cont) (prev : option char) (s : text) : result :=
  match l with
  | [] => k prev s
  | x :: l' =>
      match s with
      | c :: s' => if x =? c then lit l' k (Some c) s' else None
      | [] => None
      end
  end.

(** Greedy repetition: take one more character first, fall back to
    the continuation. *)
Fixpoint star_greedy (p : char -> bool) (k : cont) (prev : option char)
    (s : text) : result :=
  match s with
  | c :: s' =>
      if p c
      then match star_greedy p k (Some c) s' with
           | Some r => Some r
           | None => k prev s
           end
      else k prev s
  | [] => k prev s
  end.

(** Lazy repetition: try the continuation first. *)
Fixpoint star_lazy (p : char -> bool) (k : cont) (prev : option char)
    (s : text) {struct s} : result :=
  match k prev s with
  | Some r => Some r
  | None =>
      match s with
      | c :: s' => if p c then star_lazy p k (Some c) s' else None
      | [] => None
      end
  end.

Definition at_bol (prev : option char) : bool :=
  match prev with None => true | Some c => is_nl c end.

Definition at_eol (s : text) : bool :=
  match s with [] => true | c :: _ => is_nl c end.

(** Backtracking matcher in continuation-passing style: the first
    success in priority order, as [re] finds it. *)
Fixpoint run (r : regex) (k : cont) (prev : option char) (s : text) : result :=
  match r with
  | Lit l => lit l k prev s
  | Cls p =>
      match s with
      | c :: s' => if p c then k (Some c) s' else None
      | [] => None
      end
  | StarG p => star_greedy p k prev s
  | StarL p => star_lazy p k prev s
  | Bol => if at_bol prev then k prev s else None
  | Eol => if at_eol s then k prev s else None
  | Seq a b => run a (run b k) prev s
  | Alt a b =>
      match run a k prev s with
      | Some x => Some x
      | None => run b k prev s
      end
  end.

Definition accept : cont := fun prev s => Some (prev, s).

(** [pattern.match] at one position of the subject. *)
Definition match_at (r : regex) (prev : option char) (s : text) : result :=
  run r accept prev s.

(** The scan of [re.sub]: replace each leftmost match and go on after
    it.  A match that consumed nothing is replaced and the scan moves
    one character on (no pattern of this file matches the empty
    string).  [fuel] bounds the number of positions visited. *)
Fixpoint sub_go (fuel : nat) (r : regex) (repl : text)
    (prev : option char) (s : text) : text :=
  match fuel with
  | O => s
  | S fuel' =>
      let step :=
        match s with
        | [] => []
        | c :: s' => c :: sub_go fuel' r repl (Some c) s'
        end in
      match match_at r prev s with
      | Some (prev', rest) =>
          if (List.length rest <? List.length s)%nat
          then repl ++ sub_go fuel' r repl prev' rest
          else repl ++ step
      | None => step
      end
  end.

(** [re.sub(r, repl, s)] *)
Definition sub (r : regex) (repl : text) (s : text) : text :=
  sub_go (S (List.length s)) r repl None s.

End Re.

(** [s.replace(old, new)] for a non-empty [old]: every leftmost
    occurrence, without overlap, which is [re.sub] of the literal. *)
Definition replace (old new : text) (s : text) : text :=
  Re.sub (Lit old) new s.

(** A chain of [text = re.sub(pattern, repl, text)] statements. *)
Definition apply_rules (rules : list (regex * text)) (s : text) : text :=
  List.fold_left (fun t rule => Re.sub (fst rule) (snd rule) t) rules s.

(** ** [_clean_text] *)

(** Lines 229-237. *)
Definition entity_table : list (text * text) :=
  [ (txt "&nbsp;", [SP]);
    (txt "&amp;", txt "&");
    (txt "&lt;", txt "<");
    (txt "&gt;", txt ">");
    (txt "&quot;", [QUOTE]);
    (txt "&#8217;", txt "'");
    (txt "&#8220;", [QUOTE]);
    (txt "&#8221;", [QUOTE]);
    (txt "&#8230;", txt "...") ].

Definition decode_entities (s : text) : text :=
  List.fold_left (fun t e => replace (fst e) (snd e) t) entity_table s.

(** Line 240: [re.sub(r'\s+', ' ', text)]. *)
Definition collapse_ws (s : text) : text := Re.sub ws_plus [SP] s.

(** [anchor.*?$]: with [re.DOTALL] the dot is [any], without it [dot]. *)
Definition to_eol (d : char -> bool) (anchor : string) : regex :=
  (Lit (txt anchor) >- StarL d >- Eol)%re.

Definition to_eol2 (d : char -> bool) (a b : string) : regex :=
  (Lit (txt a) >- StarL d >- Lit (txt b) >- StarL d >- Eol)%re.

(** Lines 243-270, every one with the empty replacement. *)
Definition boilerplate_patterns : list regex :=
  [ Lit (txt "Share this:");
    Lit (txt "Like this:");
    to_eol2 any "Posted in" "Tagged";
    to_eol dot "Posted in";
    to_eol dot "Tagged";
    to_eol any "Entradas anteriores";
    to_eol any "Buscar:";
    to_eol any "Relevante";
    to_eol any "Comentarios recientes";
    to_eol any "Archivos";
    to_eol any "Meta";
    to_eol any "Acerca de nosotros";
    to_eol dot "Facebook";
    to_eol dot "YouTube";
    to_eol dot "Twitter";
    to_eol dot "SoundCloud";
    to_eol2 dot "Posted on" "by";
    to_eol dot "Posted in";
    to_eol dot "Posted by";
    to_eol2 any "iframe" "src=" ].

Definition boilerplate_rules : list (regex * text) :=
  List.map (fun r => (r, [])) boilerplate_patterns.

(** The opening span tag with a lang attribute: the literal up to the opening
    quote, any characters but a quote, the closing quote and bracket. *)
Definition span_lang : regex :=
  (Lit (txt "<span lang=" ++ [QUOTE]) >- StarG (fun c => negb (c =? QUOTE))
   >- Lit (QUOTE :: txt ">"))%re.

(** Lines 273-286. *)
Definition markup_rules : list (regex * text) :=
  [ (span_lang, []);
    (Lit (txt "</span>"), []);
    ((Lit (txt "<p>") >- span_lang >- StarG isspace >- Lit (txt "</span></p>"))%re, []);
    ((Lit (txt "<p>") >- StarG isspace >- Lit (txt "</p>"))%re, []);
    (Lit (txt "<b>"), []);
    (Lit (txt "</b>"), []);
    (Lit (txt "<p>"), [NL]);
    (Lit (txt "</p>"), []) ].

(** Line 289: [re.sub(r'\n\s*\n', '\n\n', text)]. *)
Definition blank_run : regex := (Cls is_nl >- StarG isspace >- Cls is_nl)%re.
Definition collapse_blank (s : text) : text := Re.sub blank_run [NL; NL] s.

(** Line 290: [re.sub(r'^\s+|\s+$', '', text, flags=re.MULTILINE)]. *)
Definition line_edges : regex := Alt (Bol >- ws_plus) (ws_plus >- Eol).
Definition trim_lines (s : text) : text := Re.sub line_edges [] s.

Definition _clean_text (s : text) : text :=
  if negb (Str.truthy s) then []
  else
    let s := decode_entities s in
    let s := collapse_ws s in
    let s := apply_rules boilerplate_rules s in
    let s := apply_rules markup_rules s in
    let s := collapse_blank s in
    let s := trim_lines s in
    Str.strip s.

(** ** Parsed documents

    A [BeautifulSoup] tree is seen through the calls the code makes on
    it.  An element answers [get_text()] and [get('content')]; a record
    container answers [find(name, class_=cls)]; a document answers
    [select_one(selector)] and [find_all('article')], the latter in
    document order.  An element is always true as a condition, so a test
    of an element is a test against [None]. *)

Record Elem : Type := {
  get_text : text;
  get_content : option text
}.

Record Article : Type := {
  find : string -> string -> option Elem
}.

Record Soup : Type := {
  select_one : string -> option Elem;
  find_all_article : list Article
}.

(** ** Field resolvers *)

Definition title_selectors : list string :=
  [ "h1.page-title"; "h1.entry-title"; "h1.post-title";
    "h1.article-title"; "h1"; "title" ]%string.

Definition dquote : string := String (ascii_of_nat 34) EmptyString.

Definition author_selectors : list string :=
  [ "span.author.vcard"; ".entry-author"; ".post-author";
    ".article-author"; ".author";
    String.append "meta[name=" (String.append dquote (String.append "author" (String.append dquote "]"))) ]%string.

(** The loop of [_extract_title]: [Some] is the [return] inside it. *)
Fixpoint title_loop (soup : Soup) (selectors : list string) : option text :=
  match selectors with
  | [] => None
  | selector :: rest =>
      match select_one soup selector with
      | Some title_elem =>
          if Str.truthy (Str.strip (get_text title_elem))
          then Some (Str.strip (get_text title_elem))
          else title_loop soup rest
      | None => title_loop soup rest
      end
  end.

Definition _extract_title (soup : Soup) : text :=
  match title_loop soup title_selectors with
  | Some t => t
  | None => txt "No title found"
  end.

(** What [_extract_author] returns for a located element. *)
Definition author_of (author_elem : Elem) : text :=
  match get_content author_elem with
  | Some c => if Str.truthy c then c else Str.strip (get_text author_elem)
  | None => Str.strip (get_text author_elem)
  end.

Fixpoint author_loop (soup : Soup) (selectors : list string) : option text :=
  match selectors with
  | [] => None
  | selector :: rest =>
      match select_one soup selector with
      | Some author_elem => Some (author_of author_elem)
      | None => author_loop soup rest
      end
  end.

Definition _extract_author (soup : Soup) : text :=
  match author_loop soup author_selectors with
  | Some a => a
  | None => txt "No author found"
  end.

(** ** [_extract_articles_from_archive] *)

(** [enumerate(l, start)] *)
Definition enumerate {A : Type} (start : nat) (l : list A) : list (nat * A) :=
  List.combine (List.seq start (List.length l)) l.

(** The record-boundary marker of line 93. *)
Definition marker (i : nat) (title : text) : text :=
  [NL] ++ txt "=== ART" ++ [205] ++ txt "CULO " ++ Str.of_nat i
       ++ txt ": " ++ title ++ txt " ===" ++ [NL].

Definition content_marker : text := [NL] ++ txt "--- CONTENIDO ---" ++ [NL].
Definition separator : text := [NL] ++ Str.times 61 80 ++ [NL].

(** A labelled line, appended only when the element was found. *)
Definition labelled (label : text) (e : option Elem) : list text :=
  match e with
  | Some e => [label ++ Str.strip (get_text e) ++ [NL]]
  | None => []
  end.

(** The content entry of lines 116-119. *)
Definition content_entry (article : Article) : list text :=
  match find article "div" "entry-content" with
  | Some content_elem => [Str.strip (get_text content_elem)]
  | None => []
  end.

(** One iteration of the loop: what it appends to [articles_text].
    [continue] appends nothing. *)
Definition article_lines (i : nat) (article : Article) : list text :=
  match find article "h2" "entry-title" with
  | None => []
  | Some title_elem =>
      let title := Str.strip (get_text title_elem) in
      [marker i title]
      ++ labelled (txt "Autor: ") (find article "span" "author")
      ++ labelled (txt "Fecha: ") (find article "time" "entry-date")
      ++ labelled (txt "Categor" ++ [237] ++ txt "as: ") (find article "span" "cat-links")
      ++ [content_marker]
      ++ content_entry article
      ++ [separator]
  end.

Definition articles_text (soup : Soup) : list text :=
  List.flat_map (fun ia => article_lines (fst ia) (snd ia))
    (enumerate 1 (find_all_article soup)).

Definition _extract_articles_from_archive (soup : Soup) : text :=
  Str.join [NL] (articles_text soup).

(** The records behind the output: for each marker appended, its index
    and its title, in the order of the appends. *)
Definition marker_of (i : nat) (article : Article) : list (nat * text) :=
  match find article "h2" "entry-title" with
  | None => []
  | Some title_elem => [(i, Str.strip (get_text title_elem))]
  end.

Definition markers (soup : Soup) : list (nat * text) :=
  List.flat_map (fun ia => marker_of (fst ia) (snd ia))
    (enumerate 1 (find_all_article soup)).

(** ** [extract_from_unam_global] *)

(** Values stored in the result dictionary. *)
Inductive pyval : Type :=
| PStr (s : text)
| PInt (z : Z).

(** The collaborators of the pipeline: the HTTP session, the parser and
    the clock.  A call that raises returns [inl] of the exception. *)
Record World : Type := {
  Exn : Type;
  Response : Type;
  str_exn : Exn -> text;                              (* [str(e)] *)
  session_get : text -> Exn + Response;               (* [self.session.get] *)
  raise_for_status : Response -> Exn + unit;
  response_content : Response -> list Byte.byte;
  BeautifulSoup : list Byte.byte -> Exn + Soup;       (* with html.parser *)
  now_isoformat : text                                (* [datetime.now().isoformat()] *)
}.

(** Sequencing of calls that can raise. *)
Definition bind {E A B : Type} (c : E + A) (k : A -> E + B) : E + B :=
  match c with
  | inl e => inl e
  | inr a => k a
  end.

Notation "'do' x <- c 'then' k" := (bind c (fun x => k))
  (at level 10, x name, c at level 100, k at level 200).

Definition base_url (year month : Z) : text :=
  txt "https://unamglobal.unam.mx/" ++ Str.zfill 4 year ++ txt "/"
    ++ Str.zfill 2 month ++ txt "/".

(** The dictionary returned on success. *)
Definition content_result (w : World) (content : text) : gmap string pyval :=
  <["content" := PStr content]>
    (<["word_count" := PInt (Z.of_nat (List.length (Str.split content)))]>
       (<["extraction_date" := PStr (now_isoformat w)]> ∅)).

(** The dictionary returned by the handler. *)
Definition error_result (w : World) (url : text) (e : Exn w) : gmap string pyval :=
  <["url" := PStr url]>
    (<["error" := PStr (str_exn w e)]>
       (<["extraction_date" := PStr (now_isoformat w)]> ∅)).

(** Lines 316-319: the aggregate text, or the empty string when it is
    blank. *)
Definition content_of (soup : Soup) : text :=
  let articles_content := _extract_articles_from_archive soup in
  if Str.truthy (Str.strip articles_content) then articles_content else [].

(** The body of the [try] block. *)
Definition try_block (w : World) (url : text) : Exn w + gmap string pyval :=
  do response <- session_get w url then
  do _ <- raise_for_status w response then
  do soup <- BeautifulSoup w (response_content w response) then
  inr (content_result w (content_of soup)).

Definition extract_from_unam_global (w : World) (year month : Z) : gmap string pyval :=
  let url := base_url year month in
  match try_block w url with
  | inr result => result
  | inl e => error_result w url e
  end.

(** ** Sample documents *)

Module Sample.

Definition elem (t : text) : Elem := {| get_text := t; get_content := None |}.

(** A container with the given [(name, class, element)] children. *)
Definition article (children : list (string * string * Elem)) : Article :=
  {| find := fun name cls =>
       match List.filter (fun nce => String.eqb (fst (fst nce)) name
                                     && String.eqb (snd (fst nce)) cls) children with
       | nce :: _ => Some (snd nce)
       | [] => None
       end |}.

Definition titled (t : string) (body : text) : Article :=
  article [ ("h2", "entry-title", elem (txt t));
            ("div", "entry-content", elem body) ]%string.

Definition untitled (body : text) : Article :=
  article [ ("div", "entry-content", elem body) ]%string.

(** A document with only record containers. *)
Definition archive (arts : list Article) : Soup :=
  {| select_one := fun _ => None; find_all_article := arts |}.

(** A document answering [select_one] from a table. *)
Definition page (table : list (string * Elem)) : Soup :=
  {| select_one := fun sel =>
       match List.filter (fun se => String.eqb (fst se) sel) table with
       | se :: _ => Some (snd se)
       | [] => None
       end;
     find_all_article := [] |}.

(** A world whose fetch and parse succeed with the given document. *)
Definition serving (soup : Soup) : World :=
  {| Exn := text; Response := unit;
     str_exn := fun e => e;
     session_get := fun _ => inr tt;
     raise_for_status := fun _ => inr tt;
     response_content := fun _ => [];
     BeautifulSoup := fun _ => inr soup;
     now_isoformat := txt "2025-01-01T00:00:00" |}.

(** A world whose fetch raises. *)
Definition unreachable (msg : text) : World :=
  {| Exn := text; Response := unit;
     str_exn := fun e => e;
     session_get := fun _ => inl msg;
     raise_for_status := fun _ => inr tt;
     response_content := fun _ => [];
     BeautifulSoup := fun _ => inr (archive []);
     now_isoformat := txt "2025-01-01T00:00:00" |}.

(** Three containers, the second without a title element. *)
Definition three_middle_untitled : Soup :=
  archive [ titled "A" (txt "alpha"); untitled (txt "beta"); titled "C" (txt "gamma") ].

(** One container whose title element holds only white space. *)
Definition blank_title : Soup := archive [ titled "   " (txt "body") ].

(** One container whose content element holds only white space. *)
Definition blank_content : Soup := archive [ titled "T" (txt "   ") ].

(** One container whose content has a run of spaces inside. *)
Definition spaced_content : Soup := archive [ titled "T" (txt "Hello   world") ].

(** A page whose first author candidate locates an empty element. *)
Definition blank_author : Soup :=
  page [ ("span.author.vcard"%string, elem []); (".author"%string, elem []) ].

(** A page whose first title candidate locates an element that holds
    only white space. *)
Definition blank_heading : Soup :=
  page [ ("h1.entry-title"%string, elem (txt "  ")); ("h1"%string, elem (txt "  ")) ].

(** A page with a heading and a byline. *)
Definition bylined : Soup :=
  page [ ("h1"%string, elem (txt " Vacunas ")); (".author"%string, elem (txt " Jane ")) ].

(** An archive page whose only container has no title element. *)
Definition only_untitled : Soup := archive [ untitled (txt "beta") ].

(** Prose with runs of white space and line breaks, no markup. *)
Definition prose : text :=
  txt "  The  vaccine" ++ [NL; NL] ++ txt "arrived in  Mexico City. " ++ [NL].

(** A boilerplate line followed by a line of content. *)
Definition two_lines : text := txt "Facebook page" ++ [NL] ++ txt "Body text".

End Sample.

(** * Auxiliary definitions for the statements *)

(** Markers of the containers enumerated from [start]. *)
Definition markers_from (start : nat) (arts : list Article) : list (nat * text) :=
  List.flat_map (fun ia => marker_of (fst ia) (snd ia)) (enumerate start arts).

Definition lines_from (start : nat) (arts : list Article) : list text :=
  List.flat_map (fun ia => article_lines (fst ia) (snd ia)) (enumerate start arts).

(** The titles of the containers that have a title element, in document
    order. *)
Definition located_titles (arts : list Article) : list text :=
  List.flat_map (fun a => match find a "h2" "entry-title" with
                          | Some e => [Str.strip (get_text e)]
                          | None => []
                          end) arts.

(** A candidate of a field resolver as the specification words it: it
    locates an element whose trimmed text is not empty. *)
Definition candidate_text (soup : Soup) (selector : string) : option text :=
  match select_one soup selector with
  | Some e =>
      let t := Str.strip (get_text e) in
      if Str.truthy t then Some t else None
  | None => None
  end.

(** The author resolver stops at the first candidate that locates an
    element; the value of an element is [author_of]. *)
Definition author_located (soup : Soup) (selector : string) : option text :=
  match select_one soup selector with
  | Some e => Some (author_of e)
  | None => None
  end.

(** [r] is the value of the first candidate of [selectors] that matches,
    or the fallback when none does. *)
Definition resolves (cand : string -> option text) (selectors : list string)
    (fallback r : text) : Prop :=
  (exists pre s post,
      selectors = pre ++ s :: post /\
      (forall s', In s' pre -> cand s' = None) /\
      cand s = Some r)
  \/ ((forall s, In s selectors -> cand s = None) /\ r = fallback).

(** The two shapes of the result dictionary. *)
Definition is_content_variant (w : World) (r : gmap string pyval) (content : text) : Prop :=
  r !! "content" = Some (PStr content) /\
  r !! "word_count" = Some (PInt (Z.of_nat (List.length (Str.split content)))) /\
  r !! "error" = None /\
  r !! "extraction_date" = Some (PStr (now_isoformat w)).

Definition is_error_variant (w : World) (r : gmap string pyval) (e : Exn w) : Prop :=
  r !! "error" = Some (PStr (str_exn w e)) /\
  r !! "content" = None /\
  r !! "word_count" = None /\
  r !! "extraction_date" = Some (PStr (now_isoformat w)).

(** The rules of [_clean_text] chained in the order that the
    specification mandates: entities, boilerplate, markup residue, runs
    of blank lines, trim.  Compared with [_clean_text], the boilerplate
    rules see the text before any white space is collapsed. *)
Definition clean_text_claimed_order (s : text) : text :=
  if negb (Str.truthy s) then []
  else
    let s := decode_entities s in
    let s := apply_rules boilerplate_rules s in
    let s := apply_rules markup_rules s in
    let s := collapse_blank s in
    let s := trim_lines s in
    Str.strip s.

(** Three newline characters in a row somewhere in [s]. *)
Definition has_nl3 (s : text) : Prop :=
  exists a b, s = a ++ [NL; NL; NL] ++ b.

(** No run of white space of [s] holds more than two newlines, [n]
    being the number of newlines already seen in the run that [s]
    continues. *)
Fixpoint ws_nl_ok (n : nat) (s : text) : bool :=
  match s with
  | [] => true
  | c :: s' =>
      if is_nl c then (n <? 2)%nat && ws_nl_ok (S n) s'
      else if isspace c then ws_nl_ok n s'
      else ws_nl_ok 0 s'
  end.

(** The white space that [s] starts with holds a newline. *)
Fixpoint lead_nl (s : text) : bool :=
  match s with
  | [] => false
  | c :: s' => if is_nl c then true else if isspace c then lead_nl s' else false
  end.

(** [t] is [s] with some white space characters deleted. *)
Inductive ws_del : text -> text -> Prop :=
| ws_del_nil : ws_del [] []
| ws_del_keep c s t : ws_del s t -> ws_del (c :: s) (c :: t)
| ws_del_drop c s t : isspace c = true -> ws_del s t -> ws_del (c :: s) t.

(** Every character that [r] can consume satisfies [P]. *)
Fixpoint within (P : char -> Prop) (r : regex) : Prop :=
  match r with
  | Lit l => Forall P l
  | Cls p | StarG p | StarL p => forall c, p c = true -> P c
  | Bol | Eol => True
  | Seq a b | Alt a b => within P a /\ within P b
  end.

Fixpoint is_prefix (l s : text) : bool :=
  match l, s with
  | [], _ => true
  | x :: l', c :: s' => (x =? c) && is_prefix l' s'
  | _ :: _, [] => false
  end.

(** [l] occurs in [s]. *)
Fixpoint occurs (l s : text) : bool :=
  is_prefix l s || match s with [] => false | _ :: s' => occurs l s' end.

(** [c] does not occur in [s]. *)
Definition no_char (c : char) (s : text) : bool :=
  List.forallb (fun x => negb (x =? c)) s.

(** A condition that every match of [r] at the head of [s] meets. *)
Fixpoint starts (r : regex) (s : text) : bool :=
  match r with
  | Lit l => is_prefix l s
  | Cls p => match s with c :: _ => p c | [] => false end
  | Seq a _ => starts a s
  | Alt a b => starts a s || starts b s
  | StarG _ | StarL _ | Bol | Eol => true
  end.

(** [r] can start at no position of [s]. *)
Fixpoint never_starts (r : regex) (s : text) : bool :=
  negb (starts r s) && match s with [] => true | _ :: s' => never_starts r s' end.

(** The literal that [r] begins with. *)
Fixpoint head_lit (r : regex) : option text :=
  match r with
  | Lit l => Some l
  | Seq a _ => head_lit a
  | _ => None
  end.

(** The phrases that the boilerplate rules start from. *)
Definition anchors : list text :=
  List.map txt
    [ "Share this:"; "Like this:"; "Posted in"; "Tagged";
      "Entradas anteriores"; "Buscar:"; "Relevante";
      "Comentarios recientes"; "Archivos"; "Meta"; "Acerca de nosotros";
      "Facebook"; "YouTube"; "Twitter"; "SoundCloud";
      "Posted on"; "Posted by"; "iframe" ]%string.

Definition no_anchor (s : text) : bool :=
  List.forallb (fun a => negb (occurs a s)) anchors.

(** The only white space of [s] is single spaces, none next to another;
    [after_space] tells that a space comes just before [s]. *)
Fixpoint single_spaced (after_space : bool) (s : text) : bool :=
  match s with
  | [] => true
  | c :: s' =>
      if isspace c
      then (c =? SP) && negb after_space && single_spaced true s'
      else single_spaced false s'
  end.

Definition starts_ws (s : text) : bool :=
  match s with c :: _ => isspace c | [] => false end.

Definition AMP : char := 38.
Definition LT : char := 60.

(** * [save_to_txt] and [main] *)

(** [str(z)] for an integer, as an f-string field prints it. *)
Definition of_Z (z : Z) : text :=
  (if (z <? 0)%Z then [45] else []) ++ Str.of_uint (N.to_uint (Z.abs_N z)).

(** [str(v)] for a value of the result dictionary. *)
Definition pystr (v : pyval) : text :=
  match v with
  | PStr s => s
  | PInt z => of_Z z
  end.

(** [s.count(pat)] for a non-empty [pat]: the occurrences from left to
    right, without overlap.  [skip] characters of the last occurrence are
    still to be passed. *)
Fixpoint count_go (pat : text) (skip : nat) (s : text) : nat :=
  match s with
  | [] => 0
  | _ :: s' =>
      match skip with
      | S k => count_go pat k s'
      | O =>
          if is_prefix pat s
          then S (count_go pat (List.length pat - 1) s')
          else count_go pat 0 s'
      end
  end.

Definition count (s pat : text) : nat := count_go pat 0 s.

(** The exceptions that [save_to_txt] can raise. *)
Inductive PyError : Type :=
| OSError                              (* [open], a write or the close failed *)
| UnicodeEncodeError                   (* the text written has no UTF-8 encoding *)
| UnboundLocalError (name : string)    (* a local read before any assignment *)
| AttributeError.                      (* [count] asked of a value that is no string *)

(** The code points U+D800 to U+DFFF: the UTF-8 codec, strict as
    [open] sets it up at line 345, refuses them. *)
Definition is_surrogate (c : char) : bool := (55296 <=? c) && (c <=? 57343).

(** Whether [f.write] can encode a text. *)
Definition encodable (s : text) : bool :=
  List.forallb (fun c => negb (is_surrogate c)) s.

(** What the file system does with one [open(path, 'w')] and with the
    write and the close that follow it. *)
Inductive Io : Type :=
| Opens                       (* the file is opened and emptied, written and closed *)
| OpenFails                   (* [open] raises and the file is not touched *)
| WriteFails (remains : text). (* [open] succeeds; the write or the close raises,
                                 and [remains] is what the file then holds *)

(** [f.write(data)] and the close at the end of the [with] block, for a
    file that has just been opened and emptied: what the file holds
    afterwards and the exception raised, if any.  The text is encoded
    before anything reaches the file, so a text that cannot be encoded
    leaves the file empty. *)
Definition write_file (io : Io) (data : text) : text * option PyError :=
  if negb (encodable data) then ([], Some UnicodeEncodeError)
  else
    match io with
    | WriteFails remains => (remains, Some OSError)
    | _ => (data, None)
    end.

(** Line 343. *)
Definition txt_filename (year month : Z) : text :=
  txt "../data/text/" ++ of_Z month ++ txt "_" ++ of_Z year ++ txt ".txt".

(** The phrase counted at line 351. *)
Definition article_word : text := txt "=== ART" ++ [205] ++ txt "CULO".

(** The message of line 354. *)
Definition saved_message (filename : text) (article_count : nat) : text :=
  txt "Saved article to " ++ filename ++ txt " (Found "
    ++ Str.of_nat article_count ++ txt " articles)".

(** [save_to_txt].  The disk is a map from paths to the texts that the
    files hold; [io] tells, for each path, what the file system does
    when the file is opened and written.  [open(filename, 'w')] empties
    the file before anything is written, and the [with] block closes it
    also when its body raises.  The result is the disk after the call
    and either the exception raised or the message logged at line 354.
    In the error branch nothing assigns [article_count], so reading it
    at line 354 raises. *)
Definition save_to_txt (io : list N -> Io) (fs : gmap (list N) text)
    (article : gmap string pyval) (year month : Z)
    : gmap (list N) text * (PyError + text) :=
  let filename := txt_filename year month in
  match io filename with
  | OpenFails => (fs, inl OSError)
  | how =>
      match article !! "error" with
      | Some v =>
          match write_file how (txt "Error: " ++ pystr v ++ [NL]) with
          | (held, Some err) => (<[filename := held]> fs, inl err)
          | (held, None) =>
              (<[filename := held]> fs, inl (UnboundLocalError "article_count"))
          end
      | None =>
          match default (PStr []) (article !! "content") with
          | PStr content =>
              let article_count := count content article_word in
              match write_file how content with
              | (held, Some err) => (<[filename := held]> fs, inl err)
              | (held, None) =>
                  (<[filename := held]> fs,
                   inr (saved_message filename article_count))
              end
          | PInt _ => (<[filename := []]> fs, inl AttributeError)
          end
      end
  end.

(** The periods of [main], in the order of its two loops. *)
Definition years : list Z := [2020; 2021; 2022; 2023]%Z.
Definition months : list Z := [1; 2; 3; 4; 5; 6; 7; 8; 9; 10; 11; 12]%Z.
Definition periods : list (Z * Z) :=
  List.flat_map (fun year => List.map (fun month => (year, month)) months) years.

(** The state that [main] carries from one period to the next. *)
Record Tally : Type := {
  disk : gmap (list N) text;
  successful_extractions : nat;
  failed_extractions : nat;
  total_articles : Z
}.

(** The body of the two loops of [main] for one period (lines 383-403;
    the prints and the pause are left out: standard output is taken to
    accept what is printed).  An exception of [save_to_txt] is caught at
    line 401, before line 395 has counted a success.  A word count that
    is no integer would raise at line 396, after the success has been
    counted. *)
Definition main_step (w : World) (io : list N -> Io) (st : Tally) (p : Z * Z) : Tally :=
  let year := fst p in
  let month := snd p in
  let article := extract_from_unam_global w year month in
  match article !! "error" with
  | None =>
      let word_count := default (PInt 0) (article !! "word_count") in
      match save_to_txt io (disk st) article year month with
      | (fs, inr _) =>
          match word_count with
          | PInt z =>
              {| disk := fs;
                 successful_extractions := S (successful_extractions st);
                 failed_extractions := failed_extractions st;
                 total_articles := (total_articles st + z)%Z |}
          | PStr _ =>
              {| disk := fs;
                 successful_extractions := S (successful_extractions st);
                 failed_extractions := S (failed_extractions st);
                 total_articles := total_articles st |}
          end
      | (fs, inl _) =>
          {| disk := fs;
             successful_extractions := successful_extractions st;
             failed_extractions := S (failed_extractions st);
             total_articles := total_articles st |}
      end
  | Some _ =>
      {| disk := disk st;
         successful_extractions := successful_extractions st;
         failed_extractions := S (failed_extractions st);
         total_articles := total_articles st |}
  end.

(** [main]: the counters and the disk when the loops end. *)
Definition main (w : World) (io : list N -> Io) (fs : gmap (list N) text) : Tally :=
  List.fold_left (main_step w io) periods
    {| disk := fs; successful_extractions := 0; failed_extractions := 0;
       total_articles := 0 |}.

(** * Further definitions for the statements *)

(** The calls of lines 310-313, which can raise. *)
Definition fetch_soup (w : World) (url : text) : Exn w + Soup :=
  do response <- session_get w url then
  do _ <- raise_for_status w response then
  BeautifulSoup w (response_content w response).

(** The words counted for a period whose fetch and parse succeed. *)
Definition words_of (soup : Soup) : Z :=
  Z.of_nat (List.length (Str.split (content_of soup))).

(** [s], put after an output that ends with [o], keeps every newline
    between two characters that are not white space, has no white space
    right after a newline or at the very start, and does not end with
    white space. *)
Fixpoint tidy_from (o : option char) (s : text) : bool :=
  match s with
  | [] => match o with Some x => negb (isspace x) | None => true end
  | c :: s' =>
      (if is_nl c then match o with Some x => negb (isspace x) | None => false end
       else if isspace c then match o with Some x => negb (is_nl x) | None => false end
       else true)
      && tidy_from (Some c) s'
  end.

(** The white space that [s] starts with has no newline and is followed
    by a character that is not white space. *)
Definition blocked (s : text) : bool :=
  negb (lead_nl s) && Str.truthy (Str.lstrip s).

(** [r] ends with [$]. *)
Fixpoint ends_eol (r : regex) : bool :=
  match r with
  | Eol => true
  | Seq _ b => ends_eol b
  | _ => false
  end.

(** The phrases whose rule deletes from the phrase on, whatever comes
    after it. *)
Definition cut_anchors : list text :=
  List.map txt
    [ "Posted in"; "Tagged"; "Entradas anteriores"; "Buscar:"; "Relevante";
      "Comentarios recientes"; "Archivos"; "Meta"; "Acerca de nosotros";
      "Facebook"; "YouTube"; "Twitter"; "SoundCloud"; "Posted by" ]%string.

(** The state of the scan of line 290: [prev] is the character before
    the position in the subject, [o] the last character put out, [s] the
    rest of the subject. *)
Definition scan_inv (prev o : option char) (s : text) : Prop :=
  (o = prev /\ match prev with Some x => isspace x = false | None => True end)
  \/ (exists x, o = Some x /\ prev = Some x /\ isspace x = true /\ blocked s = true)
  \/ (starts_ws s = false /\
      (s = [] -> match o with Some x => isspace x = false | None => True end))
  \/ ((exists x, o = Some x /\ isspace x = false) /\
      exists c s', s = c :: s' /\ is_nl c = true /\ blocked s' = true).

(** The boilerplate rules after the first two: each ends with [$]. *)
Definition eol_rules : list (regex * text) := List.skipn 2 boilerplate_rules.

(** A dot that takes every character but a newline, or every character. *)
Definition takes_line (d : char -> bool) : Prop :=
  forall c, is_nl c = false -> d c = true.

(** Whether the text of a period is saved: fetch and parse succeed, the
    file opens, the text can be encoded and the write goes through. *)
Definition saved_ok (w : World) (io : list N -> Io) (p : Z * Z) : bool :=
  match fetch_soup w (base_url (fst p) (snd p)) with
  | inr soup =>
      match io (txt_filename (fst p) (snd p)) with
      | Opens => encodable (content_of soup)
      | _ => false
      end
  | inl _ => false
  end.

(** The words that a period adds to the total. *)
Definition period_words (w : World) (io : list N -> Io) (p : Z * Z) : Z :=
  match fetch_soup w (base_url (fst p) (snd p)) with
  | inr soup => if saved_ok w io p then words_of soup else 0%Z
  | inl _ => 0%Z
  end.

(** The file of a period after [main_step], from what it held before. *)
Definition file_after (w : World) (io : list N -> Io) (p : Z * Z)
    (old : option text) : option text :=
  match fetch_soup w (base_url (fst p) (snd p)) with
  | inr soup =>
      match io (txt_filename (fst p) (snd p)) with
      | OpenFails => old
      | Opens =>
          Some (if encodable (content_of soup) then content_of soup else [])
      | WriteFails remains =>
          Some (if encodable (content_of soup) then remains else [])
      end
  | inl _ => old
  end.

(** The disk after [main_step], from the disk before. *)
Definition disk_after (w : World) (io : list N -> Io) (p : Z * Z)
    (fs : gmap (list N) text) : gmap (list N) text :=
  match fetch_soup w (base_url (fst p) (snd p)) with
  | inr soup =>
      match io (txt_filename (fst p) (snd p)) with
      | OpenFails => fs
      | Opens =>
          <[txt_filename (fst p) (snd p) :=
              if encodable (content_of soup) then content_of soup else []]> fs
      | WriteFails remains =>
          <[txt_filename (fst p) (snd p) :=
              if encodable (content_of soup) then remains else []]> fs
      end
  | inl _ => fs
  end.

(** A file system on which every file can be written, and one on which
    none can be opened. *)
Definition writable : list N -> Io := fun _ => Opens.
Definition closed : list N -> Io := fun _ => OpenFails.

(** Whether [r] matches at some position of [s], the character before
    [s] being [prev]. *)
Fixpoint fires_from (r : regex) (prev : option char) (s : text) : bool :=
  match Re.match_at r prev s with
  | Some _ => true
  | None =>
      match s with
      | [] => false
      | c :: s' => fires_from r (Some c) s'
      end
  end.

Definition fires (r : regex) (s : text) : bool := fires_from r None s.

(** The replacements of lines 229-237 as rules. *)
Definition entity_rules : list (regex * text) :=
  List.map (fun e => (Lit (fst e), snd e)) entity_table.

(** Every rule of [_clean_text] that is not about white space: the
    entities, the boilerplate and the markup. *)
Definition chain_rules : list (regex * text) :=
  entity_rules ++ boilerplate_rules ++ markup_rules.

(** A text on which a pass of [_clean_text] finds nothing to do: its
    white space is single spaces only, and no entity, boilerplate or
    markup pattern matches anywhere in it. *)
Definition settled (s : text) : bool :=
  single_spaced false s
  && List.forallb (fun rule => negb (fires (fst rule) s)) chain_rules.

(** The least number of characters that a match of [r] takes. *)
Fixpoint min_len (r : regex) : nat :=
  match r with
  | Lit l => List.length l
  | Cls _ => 1
  | StarG _ | StarL _ | Bol | Eol => 0
  | Seq a b => min_len a + min_len b
  | Alt a b => Nat.min (min_len a) (min_len b)
  end.

(** A rule whose replacement is shorter than anything it matches. *)
Definition shrinks (rule : regex * text) : Prop :=
  (List.length (snd rule) < min_len (fst rule))%nat.

Module Fixture.

(** A world in which only January 2020 can be fetched. *)
Definition january_only (soup : Soup) : World :=
  {| Exn := text; Response := unit;
     str_exn := fun e => e;
     session_get := fun url =>
       if List.list_eq_dec N.eq_dec url (base_url 2020 1)
       then inr tt else inl (txt "404 Client Error");
     raise_for_status := fun _ => inr tt;
     response_content := fun _ => [];
     BeautifulSoup := fun _ => inr soup;
     now_isoformat := txt "2025-01-01T00:00:00" |}.

(** A paragraph break in markup. *)
Definition two_paragraphs : text := txt "alpha <p>beta".

(** White space of several kinds. *)
Definition blank : text := [SP; 9; NL; 160; SP].

(** Prose in which a footer phrase shows. *)
Definition with_footer : text := txt "News of the day Archivos enero 2020".

(** Prose with a bare ampersand, with a bare angle bracket, and with a
    share line. *)
Definition ampersands : text := txt "AT&T and  R&D".
Definition comparison : text := txt "if a < b then  c".
Definition shared : text := txt "Read more Facebook Twitter".

(** An archive whose only record holds a lone surrogate. *)
Definition surrogate_page : Soup :=
  Sample.archive [ Sample.titled "T" [120; 55296; 121] ].

(** A file system on which every write fails and leaves [remains]. *)
Definition failing_disk (remains : text) : list N -> Io :=
  fun _ => WriteFails remains.

End Fixture.

(** * Lemmas and theorems *)

(** ** The archive decomposer *)

Lemma markers_from_cons start a arts :
  markers_from start (a :: arts) = marker_of start a ++ markers_from (S start) arts.
Proof. reflexivity. Qed.

Lemma lines_from_cons start a arts :
  lines_from start (a :: arts) = article_lines start a ++ lines_from (S start) arts.
Proof. reflexivity. Qed.

Lemma markers_unfold soup : markers soup = markers_from 1 (find_all_article soup).
Proof. reflexivity. Qed.

Lemma articles_text_unfold soup : articles_text soup = lines_from 1 (find_all_article soup).
Proof. reflexivity. Qed.

(** A marker numbered [i] is there exactly for the container at offset
    [i - start] when that container has a title element. *)
Lemma in_markers_from arts : forall start i t,
  In (i, t) (markers_from start arts) <->
  (start <= i)%nat /\
  exists a e, nth_error arts (i - start) = Some a /\
              find a "h2" "entry-title" = Some e /\
              t = Str.strip (get_text e).
Proof.
  induction arts as [|a arts IH]; intros start i t.
  - split; [intros [] | intros (_ & a & e & H & _)].
    destruct (i - start)%nat; discriminate.
  - rewrite markers_from_cons, in_app_iff, IH. split.
    + intros [Hin | (Hle & b & e & Hn & Hf & Ht)].
      * unfold marker_of in Hin.
        destruct (find a "h2" "entry-title") as [e|] eqn:Hf; [|destruct Hin].
        destruct Hin as [Heq | []]. inversion Heq; subst.
        split; [lia|]. exists a, e. rewrite Nat.sub_diag. auto.
      * split; [lia|]. exists b, e.
        replace (i - start)%nat with (S (i - S start)) by lia. auto.
    + intros (Hle & b & e & Hn & Hf & Ht).
      destruct (Nat.eq_dec i start) as [-> | Hne].
      * left. rewrite Nat.sub_diag in Hn. inversion Hn; subst b.
        unfold marker_of. rewrite Hf. left. congruence.
      * right. split; [lia|]. exists b, e.
        replace (i - start)%nat with (S (i - S start)) in Hn by lia. auto.
Qed.

Lemma markers_from_sorted arts : forall start,
  StronglySorted lt (List.map fst (markers_from start arts)).
Proof.
  induction arts as [|a arts IH]; intros start; [constructor|].
  rewrite markers_from_cons, List.map_app.
  assert (Htail : Forall (lt start) (List.map fst (markers_from (S start) arts))).
  { apply List.Forall_forall. intros i Hi. apply List.in_map_iff in Hi.
    destruct Hi as ([j t] & <- & Hin). apply in_markers_from in Hin. simpl. lia. }
  unfold marker_of. destruct (find a "h2" "entry-title"); simpl.
  - constructor; [apply IH | exact Htail].
  - apply IH.
Qed.

Lemma markers_from_titles arts : forall start,
  List.map snd (markers_from start arts) = located_titles arts.
Proof.
  induction arts as [|a arts IH]; intros start; [reflexivity|].
  rewrite markers_from_cons, List.map_app, IH. unfold located_titles, marker_of. simpl.
  destruct (find a "h2" "entry-title"); reflexivity.
Qed.

(** A container without a title element adds nothing; one with a title
    element adds a block that opens with its marker and closes with the
    separator. *)
Lemma article_lines_shape i a :
  match find a "h2" "entry-title" with
  | None => article_lines i a = [] /\ marker_of i a = []
  | Some e =>
      marker_of i a = [(i, Str.strip (get_text e))] /\
      exists mid, article_lines i a =
                  marker i (Str.strip (get_text e)) :: mid ++ [separator]
                  /\ In content_marker mid
  end.
Proof.
  unfold article_lines, marker_of.
  destruct (find a "h2" "entry-title") as [e|]; [|auto].
  split; [reflexivity|].
  exists (labelled (txt "Autor: ") (find a "span" "author")
          ++ labelled (txt "Fecha: ") (find a "time" "entry-date")
          ++ labelled (txt "Categor" ++ [237] ++ txt "as: ") (find a "span" "cat-links")
          ++ [content_marker] ++ content_entry a).
  split.
  - change (?m :: ?x ++ [separator]) with ([m] ++ x ++ [separator]).
    rewrite <- !List.app_assoc. reflexivity.
  - rewrite !in_app_iff. do 3 right. left. left. reflexivity.
Qed.

Lemma lines_from_all_skipped arts : forall start,
  (forall a, In a arts -> find a "h2" "entry-title" = None) ->
  lines_from start arts = [].
Proof.
  induction arts as [|a arts IH]; intros start H; [reflexivity|].
  rewrite lines_from_cons, IH by (intros b Hb; apply H; right; exact Hb).
  unfold article_lines. rewrite (H a) by (left; reflexivity). reflexivity.
Qed.

Lemma markers_from_all_titled arts : forall start,
  (forall a, In a arts -> find a "h2" "entry-title" <> None) ->
  List.map fst (markers_from start arts) = List.seq start (List.length arts).
Proof.
  induction arts as [|a arts IH]; intros start H; [reflexivity|].
  rewrite markers_from_cons, List.map_app, IH by (intros b Hb; apply H; right; exact Hb).
  unfold marker_of. specialize (H a (or_introl eq_refl)).
  destruct (find a "h2" "entry-title"); [reflexivity | congruence].
Qed.

Lemma lines_from_app pre : forall start arts,
  lines_from start (pre ++ arts) =
  lines_from start pre ++ lines_from (start + List.length pre) arts.
Proof.
  induction pre as [|a pre IH]; intros start arts.
  - rewrite Nat.add_0_r. reflexivity.
  - change ((a :: pre) ++ arts) with (a :: pre ++ arts).
    rewrite !lines_from_cons, IH, <- List.app_assoc.
    cbn [List.length]. rewrite Nat.add_succ_r. reflexivity.
Qed.

(** The output is the blocks of the records one after the other: each
    entry of [markers_from] heads its own block, with its own index and
    title in the marker. *)
Lemma lines_from_blocks arts : forall start,
  exists rests,
    List.length rests = List.length (markers_from start arts)
    /\ lines_from start arts =
       List.concat (List.map (fun mr => marker (fst (fst mr)) (snd (fst mr)) :: snd mr)
                             (List.combine (markers_from start arts) rests))
    /\ Forall (fun rest => exists mid, rest = mid ++ [separator] /\ In content_marker mid)
              rests.
Proof.
  induction arts as [|a arts IH]; intros start.
  - exists []. repeat split. constructor.
  - destruct (IH (S start)) as (rests & Hlen & Hout & Hshape).
    rewrite lines_from_cons, markers_from_cons.
    pose proof (article_lines_shape start a) as S.
    destruct (find a "h2" "entry-title") as [e|].
    + destruct S as (-> & mid & -> & Hin).
      exists ((mid ++ [separator]) :: rests). split; [|split].
      * cbn [List.length List.app]. rewrite Hlen. reflexivity.
      * cbn [List.app List.combine List.map List.concat fst snd].
        rewrite Hout. reflexivity.
      * constructor; [exists mid; auto | exact Hshape].
    + destruct S as (-> & ->). exists rests. auto.
Qed.

(** C1, as the code has it: the index in a record-boundary marker is the
    1-based position of its container among all record containers of
    the document, skipped ones included.  The pieces joined into the
    output are one block per record, each opening with the marker that
    carries the index and the title of that record and closing with the
    separator; the block of the container at position [length pre + 1]
    carries that number, whatever the containers before it are.  The
    indices are strictly increasing in document order, a marker numbered
    [i] stands for the [i]-th container, and they are contiguous from 1
    when no container is skipped; with three containers whose second
    lacks a title the two records are numbered 1 and 3. *)
Theorem marker_indices_are_positions (soup : Soup) :
  (exists rests,
      List.length rests = List.length (markers soup)
      /\ _extract_articles_from_archive soup =
         Str.join [NL]
           (List.concat
              (List.map (fun mr => marker (fst (fst mr)) (snd (fst mr)) :: snd mr)
                        (List.combine (markers soup) rests)))
      /\ Forall (fun rest => exists mid, rest = mid ++ [separator] /\ In content_marker mid)
                rests)
  /\ (forall pre a post e,
        find_all_article soup = pre ++ a :: post ->
        find a "h2" "entry-title" = Some e ->
        exists mid,
          articles_text soup =
          lines_from 1 pre
          ++ (marker (S (List.length pre)) (Str.strip (get_text e)) :: mid ++ [separator])
          ++ lines_from (List.length pre + 2) post)
  /\ StronglySorted lt (List.map fst (markers soup))
  /\ (forall i t,
        In (i, t) (markers soup) <->
        (1 <= i)%nat /\
        exists a e, nth_error (find_all_article soup) (i - 1) = Some a /\
                    find a "h2" "entry-title" = Some e /\
                    t = Str.strip (get_text e))
  /\ ((forall a, In a (find_all_article soup) -> find a "h2" "entry-title" <> None) ->
      List.map fst (markers soup) = List.seq 1 (List.length (find_all_article soup)))
  /\ markers Sample.three_middle_untitled = [(1, txt "A"); (3, txt "C")]%nat
  /\ articles_text Sample.three_middle_untitled =
       [ marker 1 (txt "A"); content_marker; txt "alpha"; separator;
         marker 3 (txt "C"); content_marker; txt "gamma"; separator ].
Proof.
  split.
  { unfold _extract_articles_from_archive. rewrite articles_text_unfold, markers_unfold.
    destruct (lines_from_blocks (find_all_article soup) 1) as (rests & Hlen & Hout & Hshape).
    exists rests. rewrite Hout. auto. }
  split.
  { intros pre a post e Harts Hfind.
    rewrite articles_text_unfold, Harts, lines_from_app, lines_from_cons.
    pose proof (article_lines_shape (1 + List.length pre) a) as S. rewrite Hfind in S.
    destruct S as (_ & mid & -> & _). exists mid.
    replace (S (1 + List.length pre)) with (List.length pre + 2)%nat by lia.
    reflexivity. }
  rewrite markers_unfold. split; [apply markers_from_sorted|].
  split; [intros i t; apply in_markers_from|].
  split; [apply markers_from_all_titled|]. split; reflexivity.
Qed.

Lemma marker_indices_are_positions_witness :
  exists mid,
    articles_text Sample.three_middle_untitled =
    lines_from 1 [Sample.titled "A" (txt "alpha"); Sample.untitled (txt "beta")]
    ++ (marker 3 (txt "C") :: mid ++ [separator])
    ++ lines_from 4 [].
Proof.
  destruct (marker_indices_are_positions Sample.three_middle_untitled) as (_ & H & _).
  apply (H [Sample.titled "A" (txt "alpha"); Sample.untitled (txt "beta")]
           (Sample.titled "C" (txt "gamma")) [] (Sample.elem (txt "C")));
    reflexivity.
Defined.

(** C1, as stated, fails: with three containers whose second lacks a
    title, the markers appended to the output are numbered 1 and 3, not
    1 and 2. *)
Lemma marker_indices_not_contiguous :
  articles_text Sample.three_middle_untitled =
    [ marker 1 (txt "A"); content_marker; txt "alpha"; separator;
      marker 3 (txt "C"); content_marker; txt "gamma"; separator ]
  /\ List.map fst (markers Sample.three_middle_untitled) <>
     List.seq 1 (List.length (markers Sample.three_middle_untitled)).
Proof. split; [reflexivity | discriminate]. Qed.

(** C6, as the code has it: a record is emitted for exactly the
    containers whose title locator yields an element, its title being
    the trimmed text of that element, which may be empty; a container
    whose title locator yields no element appends nothing, neither a
    marker nor any other line. *)
Theorem records_follow_title_elements (soup : Soup) :
  List.map snd (markers soup) = located_titles (find_all_article soup)
  /\ (forall i a, find a "h2" "entry-title" = None ->
                  article_lines i a = [] /\ marker_of i a = [])
  /\ (forall i a e, find a "h2" "entry-title" = Some e ->
                    marker_of i a = [(i, Str.strip (get_text e))] /\
                    List.hd_error (article_lines i a) =
                      Some (marker i (Str.strip (get_text e)))).
Proof.
  split; [apply markers_from_titles|]. split.
  - intros i a H. pose proof (article_lines_shape i a) as S. rewrite H in S. exact S.
  - intros i a e H. pose proof (article_lines_shape i a) as S. rewrite H in S.
    destruct S as (Hm & mid & Hl & _). rewrite Hl. auto.
Qed.

(** C6, as stated, fails: a container whose title element holds only
    white space is emitted, and its record has the empty title. *)
Lemma blank_title_is_emitted :
  markers Sample.blank_title = [(1%nat, [])]
  /\ articles_text Sample.blank_title =
       [ marker 1 []; content_marker; txt "body"; separator ]
  /\ ~ (forall soup i t, In (i, t) (markers soup) -> t <> []).
Proof.
  split; [reflexivity|]. split; [reflexivity|].
  intros H. apply (H Sample.blank_title 1%nat []); [left|]; reflexivity.
Qed.

(** ** The field resolvers *)

Lemma title_loop_spec soup selectors :
  match title_loop soup selectors with
  | Some t =>
      exists pre s post,
        selectors = pre ++ s :: post /\
        (forall s', In s' pre -> candidate_text soup s' = None) /\
        candidate_text soup s = Some t
  | None => forall s, In s selectors -> candidate_text soup s = None
  end.
Proof.
  induction selectors as [|sel rest IH]; simpl; [intros s []|].
  assert (Hskip : candidate_text soup sel = None ->
                  match title_loop soup rest with
                  | Some t =>
                      exists pre s post,
                        sel :: rest = pre ++ s :: post /\
                        (forall s', In s' pre -> candidate_text soup s' = None) /\
                        candidate_text soup s = Some t
                  | None => forall s, In s (sel :: rest) -> candidate_text soup s = None
                  end).
  { intros Hc. destruct (title_loop soup rest) as [t|].
    - destruct IH as (pre & s & post & -> & Hpre & Hs).
      exists (sel :: pre), s, post. split; [reflexivity|]. split; [|exact Hs].
      intros s' [<- | Hin]; auto.
    - intros s [<- | Hin]; auto. }
  unfold candidate_text in Hskip |- * at 1.
  destruct (select_one soup sel) as [e|] eqn:He; [|apply Hskip; reflexivity].
  destruct (Str.truthy (Str.strip (get_text e))) eqn:Ht; [|apply Hskip; reflexivity].
  exists [], sel, rest. split; [reflexivity|]. split; [intros s' []|].
  unfold candidate_text. rewrite He. simpl. rewrite Ht. reflexivity.
Qed.

(** The title resolver returns the first candidate, in priority order,
    that locates an element with non-empty trimmed text, or its
    sentinel. *)
Lemma extract_title_resolves (soup : Soup) :
  resolves (candidate_text soup) title_selectors (txt "No title found")
    (_extract_title soup).
Proof.
  unfold _extract_title. pose proof (title_loop_spec soup title_selectors) as H.
  destruct (title_loop soup title_selectors) as [t|]; [left | right]; auto.
Qed.

Lemma author_loop_spec soup selectors :
  match author_loop soup selectors with
  | Some t =>
      exists pre s post,
        selectors = pre ++ s :: post /\
        (forall s', In s' pre -> author_located soup s' = None) /\
        author_located soup s = Some t
  | None => forall s, In s selectors -> author_located soup s = None
  end.
Proof.
  induction selectors as [|sel rest IH]; cbn [author_loop]; [intros s []|].
  destruct (select_one soup sel) as [e|] eqn:He.
  - exists [], sel, rest. split; [reflexivity|]. split; [intros s' []|].
    unfold author_located. rewrite He. reflexivity.
  - assert (Hc : author_located soup sel = None)
      by (unfold author_located; rewrite He; reflexivity).
    destruct (author_loop soup rest) as [t|].
    + destruct IH as (pre & s & post & Hsel & Hpre & Hs).
      exists (sel :: pre), s, post. split; [rewrite Hsel; reflexivity|].
      split; [|exact Hs].
      intros s' [Heq | Hin]; [rewrite <- Heq; exact Hc | apply Hpre; exact Hin].
    + intros s [Heq | Hin]; [rewrite <- Heq; exact Hc | apply IH; exact Hin].
Qed.

(** The author resolver returns the value of the first candidate, in
    priority order, that locates an element, be that value empty or
    not, or its sentinel when no candidate locates one. *)
Lemma extract_author_first_located (soup : Soup) :
  resolves (author_located soup) author_selectors (txt "No author found")
    (_extract_author soup).
Proof.
  unfold _extract_author. pose proof (author_loop_spec soup author_selectors) as H.
  destruct (author_loop soup author_selectors) as [t|]; [left | right]; auto.
Qed.

(** A byline found by a later candidate, with the white space around
    it stripped. *)
Example extract_author_bylined : _extract_author Sample.bylined = txt "Jane".
Proof. reflexivity. Qed.

(** C7 at a document of which the first author candidate locates an
    element with empty text and no content attribute, and no other
    candidate locates anything: no author candidate matches, and
    [_extract_author] returns the empty string where the claim has the
    sentinel.  The title resolver, on a document of the same kind, skips
    the blank element (the test of line 47) and returns its sentinel;
    the author resolver has no such test. *)
Theorem author_resolver_returns_blank :
  _extract_author Sample.blank_author = []
  /\ (forall s, In s author_selectors ->
                candidate_text Sample.blank_author s = None)
  /\ ~ resolves (candidate_text Sample.blank_author) author_selectors
         (txt "No author found") (_extract_author Sample.blank_author)
  /\ _extract_title Sample.blank_heading = txt "No title found".
Proof.
  assert (Hnone : forall s, In s author_selectors ->
                            candidate_text Sample.blank_author s = None).
  { intros s Hs. unfold author_selectors in Hs. simpl in Hs.
    repeat (destruct Hs as [<- | Hs]; [reflexivity|]). destruct Hs. }
  split; [reflexivity|]. split; [exact Hnone|]. split; [|reflexivity].
  intros [(pre & s & post & Hsel & _ & Hs) | (_ & Hr)].
  - rewrite Hnone in Hs; [discriminate|].
    rewrite Hsel. apply in_app_iff. right. left. reflexivity.
  - discriminate Hr.
Qed.

(** ** The content of a record block *)

(** C3, as the code has it: for a container with a title element and a
    content element, the entry that follows the content-section marker
    in the block is the extracted content with the white space at its
    two ends stripped, and nothing else is done to it. *)
Theorem content_entry_is_stripped_text (i : nat) (a : Article) (t e : Elem) :
  find a "h2" "entry-title" = Some t ->
  find a "div" "entry-content" = Some e ->
  exists head,
    article_lines i a =
    head ++ [content_marker; Str.strip (get_text e); separator].
Proof.
  intros Ht He. unfold article_lines, content_entry. rewrite Ht, He.
  exists ([marker i (Str.strip (get_text t))]
          ++ labelled (txt "Autor: ") (find a "span" "author")
          ++ labelled (txt "Fecha: ") (find a "time" "entry-date")
          ++ labelled (txt "Categor" ++ [237] ++ txt "as: ") (find a "span" "cat-links")).
  rewrite <- !List.app_assoc. reflexivity.
Qed.

Lemma content_entry_is_stripped_text_witness :
  exists head,
    article_lines 1 (Sample.titled "T" (txt "  Hello   world ")) =
    head ++ [content_marker; Str.strip (txt "  Hello   world "); separator].
Proof.
  apply (content_entry_is_stripped_text 1 (Sample.titled "T" (txt "  Hello   world "))
           (Sample.elem (txt "T")) (Sample.elem (txt "  Hello   world ")));
    reflexivity.
Defined.

(** C3, as stated, fails: at a content with a run of spaces inside, the
    block holds the extracted text as it is, not the text that
    [_clean_text] makes of it. *)
Lemma content_inserted_uncleaned :
  articles_text Sample.spaced_content =
    [ marker 1 (txt "T"); content_marker; txt "Hello   world"; separator ]
  /\ _clean_text (txt "Hello   world") = txt "Hello world"
  /\ txt "Hello   world" <> _clean_text (txt "Hello   world").
Proof. split; [reflexivity|]. split; [vm_compute; reflexivity | vm_compute; discriminate]. Qed.

(** C4, as the code has it: a container whose title locator matched
    always produces a record: its marker, the content-section marker,
    the content entry and the closing separator.  The content entry is
    the stripped text of the content element, empty when that text is
    white space, and there is none when the element is missing. *)
Theorem titled_container_always_emitted (i : nat) (a : Article) (t : Elem) :
  find a "h2" "entry-title" = Some t ->
  marker_of i a = [(i, Str.strip (get_text t))]
  /\ (exists mid,
        article_lines i a =
        marker i (Str.strip (get_text t)) :: mid
          ++ content_marker :: content_entry a ++ [separator])
  /\ content_entry a = match find a "div" "entry-content" with
                       | Some e => [Str.strip (get_text e)]
                       | None => []
                       end.
Proof.
  intros Ht. unfold marker_of, article_lines. rewrite Ht.
  split; [reflexivity|]. split; [|reflexivity].
  exists (labelled (txt "Autor: ") (find a "span" "author")
          ++ labelled (txt "Fecha: ") (find a "time" "entry-date")
          ++ labelled (txt "Categor" ++ [237] ++ txt "as: ") (find a "span" "cat-links")).
  change (?m :: ?x ++ content_marker :: ?y) with ([m] ++ x ++ [content_marker] ++ y).
  rewrite <- !List.app_assoc. reflexivity.
Qed.

Lemma titled_container_always_emitted_witness :
  marker_of 1 (Sample.titled "T" (txt "   ")) = [(1%nat, txt "T")]
  /\ (exists mid,
        article_lines 1 (Sample.titled "T" (txt "   ")) =
        marker 1 (txt "T") :: mid
          ++ content_marker :: content_entry (Sample.titled "T" (txt "   "))
          ++ [separator])
  /\ content_entry (Sample.titled "T" (txt "   ")) = [[]].
Proof.
  apply (titled_container_always_emitted 1 (Sample.titled "T" (txt "   "))
           (Sample.elem (txt "T"))).
  reflexivity.
Defined.

(** C4, as stated, fails: a container with a title and a content of
    white space only has an empty cleaned content, and its record is
    emitted all the same, with an empty content entry. *)
Lemma blank_content_still_emitted :
  _clean_text (txt "   ") = []
  /\ markers Sample.blank_content = [(1%nat, txt "T")]
  /\ articles_text Sample.blank_content =
       [ marker 1 (txt "T"); content_marker; []; separator ]
  /\ ~ (forall i a e, find a "div" "entry-content" = Some e ->
                      Str.strip (_clean_text (get_text e)) = [] ->
                      article_lines i a = []).
Proof.
  split; [vm_compute; reflexivity|]. split; [reflexivity|]. split; [reflexivity|].
  intros H.
  specialize (H 1%nat (Sample.titled "T" (txt "   ")) (Sample.elem (txt "   "))
                eq_refl).
  assert (Hc : Str.strip (_clean_text (get_text (Sample.elem (txt "   ")))) = [])
    by (vm_compute; reflexivity).
  specialize (H Hc). discriminate H.
Qed.

(** ** The pipeline *)

Lemma content_result_variant w content :
  is_content_variant w (content_result w content) content.
Proof. unfold is_content_variant, content_result. repeat split; by simplify_map_eq. Qed.

Lemma error_result_variant w url e :
  is_error_variant w (error_result w url e) e.
Proof. unfold is_error_variant, error_result. repeat split; by simplify_map_eq. Qed.

(** The result of the pipeline, case by case on the calls that can
    raise. *)
Lemma extract_cases (w : World) (year month : Z) :
  let url := base_url year month in
  let r := extract_from_unam_global w year month in
  match session_get w url with
  | inl e => r = error_result w url e
  | inr response =>
      match raise_for_status w response with
      | inl e => r = error_result w url e
      | inr _ =>
          match BeautifulSoup w (response_content w response) with
          | inl e => r = error_result w url e
          | inr soup => r = content_result w (content_of soup)
          end
      end
  end.
Proof.
  intros url r. subst r. unfold extract_from_unam_global, try_block, bind. fold url.
  destruct (session_get w url) as [e|response]; [reflexivity|].
  destruct (raise_for_status w response) as [e|[]]; [reflexivity|].
  destruct (BeautifulSoup w (response_content w response)) as [e|soup]; reflexivity.
Qed.

(** C8: whatever the collaborators do, [extract_from_unam_global]
    returns a dictionary.  When the fetch, the status check or the
    parser raises, it is the error variant with the description of that
    exception, and has neither content nor word count; otherwise it is
    the content variant, with no error.  The extraction date is there in
    both. *)
Theorem extract_returns_one_variant (w : World) (year month : Z) :
  let url := base_url year month in
  let r := extract_from_unam_global w year month in
  match session_get w url with
  | inl e => is_error_variant w r e
  | inr response =>
      match raise_for_status w response with
      | inl e => is_error_variant w r e
      | inr _ =>
          match BeautifulSoup w (response_content w response) with
          | inl e => is_error_variant w r e
          | inr soup => is_content_variant w r (content_of soup)
          end
      end
  end.
Proof.
  intros url r. pose proof (extract_cases w year month) as H. cbv zeta in H.
  fold url r in H.
  destruct (session_get w url) as [e|response];
    [rewrite H; apply error_result_variant|].
  destruct (raise_for_status w response) as [e|u];
    [rewrite H; apply error_result_variant|].
  destruct (BeautifulSoup w (response_content w response)) as [e|soup];
    rewrite H; [apply error_result_variant | apply content_result_variant].
Qed.

(** The period (2025, 13) on a source that cannot be reached: the error
    variant, with the message of the exception and no content. *)
Example unreachable_period :
  let r := extract_from_unam_global (Sample.unreachable (txt "404 Not Found")) 2025 13 in
  r !! "error" = Some (PStr (txt "404 Not Found"))
  /\ r !! "content" = None
  /\ r !! "url" = Some (PStr (txt "https://unamglobal.unam.mx/2025/13/")).
Proof. repeat split; vm_compute; reflexivity. Qed.

(** C10: when the document has no record container, or every container
    is skipped, the decomposer returns the empty string, and the
    pipeline returns the content variant with the empty content and a
    word count of 0, not the error variant. *)
Theorem empty_archive_yields_empty_content
    (w : World) (year month : Z) (response : Response w) (soup : Soup) :
  (forall a, In a (find_all_article soup) -> find a "h2" "entry-title" = None) ->
  session_get w (base_url year month) = inr response ->
  raise_for_status w response = inr tt ->
  BeautifulSoup w (response_content w response) = inr soup ->
  _extract_articles_from_archive soup = []
  /\ extract_from_unam_global w year month !! "content" = Some (PStr [])
  /\ extract_from_unam_global w year month !! "word_count" = Some (PInt 0)
  /\ extract_from_unam_global w year month !! "error" = None.
Proof.
  intros Hskip Hget Hstatus Hparse.
  assert (Hempty : _extract_articles_from_archive soup = []).
  { unfold _extract_articles_from_archive.
    rewrite articles_text_unfold, lines_from_all_skipped by exact Hskip. reflexivity. }
  split; [exact Hempty|].
  pose proof (extract_cases w year month) as H. cbv zeta in H.
  rewrite Hget, Hstatus, Hparse in H.
  assert (Hc : content_of soup = []).
  { unfold content_of. rewrite Hempty. reflexivity. }
  rewrite Hc in H. rewrite H.
  destruct (content_result_variant w []) as (H1 & H2 & H3 & _). auto.
Qed.

Lemma empty_archive_yields_empty_content_witness :
  _extract_articles_from_archive Sample.only_untitled = []
  /\ extract_from_unam_global (Sample.serving Sample.only_untitled) 2020 1 !! "content"
     = Some (PStr [])
  /\ extract_from_unam_global (Sample.serving Sample.only_untitled) 2020 1 !! "word_count"
     = Some (PInt 0)
  /\ extract_from_unam_global (Sample.serving Sample.only_untitled) 2020 1 !! "error"
     = None.
Proof.
  apply (empty_archive_yields_empty_content
           (Sample.serving Sample.only_untitled) 2020 1 tt Sample.only_untitled).
  - intros a [<- | []]. reflexivity.
  - reflexivity.
  - reflexivity.
  - reflexivity.
Defined.

(** ** The matcher *)

Lemma is_nl_isspace c : is_nl c = true -> isspace c = true.
Proof. unfold is_nl. intros H. apply N.eqb_eq in H. subst c. reflexivity. Qed.

Lemma lit_consumes l : forall k prev s res,
  Re.lit l k prev s = Some res ->
  exists prev', s = l ++ List.skipn (List.length l) s /\
                k prev' (List.skipn (List.length l) s) = Some res.
Proof.
  induction l as [|x l IH]; intros k prev s res H; simpl in H.
  - exists prev. auto.
  - destruct s as [|c s]; [discriminate|].
    destruct (x =? c) eqn:E; [|discriminate]. apply N.eqb_eq in E. subst c.
    destruct (IH _ _ _ _ H) as (p & Hs & Hk). exists p. simpl. split; [f_equal|]; assumption.
Qed.

Section Consumes.

Variable P : char -> Prop.

Lemma star_greedy_consumes p (Hp : forall c, p c = true -> P c) k : forall s prev res,
  Re.star_greedy p k prev s = Some res ->
  exists w prev' s', s = w ++ s' /\ Forall P w /\ k prev' s' = Some res.
Proof.
  induction s as [|c s IH]; intros prev res H; simpl in H.
  - exists [], prev, []. auto.
  - destruct (p c) eqn:E; [|exists [], prev, (c :: s); auto].
    destruct (Re.star_greedy p k (Some c) s) as [r|] eqn:R.
    + inversion H; subst r. destruct (IH _ _ R) as (w & p' & s' & -> & Hw & Hk).
      exists (c :: w), p', s'. auto.
    + exists [], prev, (c :: s). auto.
Qed.

Lemma star_lazy_consumes p (Hp : forall c, p c = true -> P c) k : forall s prev res,
  Re.star_lazy p k prev s = Some res ->
  exists w prev' s', s = w ++ s' /\ Forall P w /\ k prev' s' = Some res.
Proof.
  induction s as [|c s IH]; intros prev res H; simpl in H.
  - destruct (k prev []) eqn:K; [|discriminate]. inversion H; subst.
    exists [], prev, []. auto.
  - destruct (k prev (c :: s)) eqn:K.
    + inversion H; subst. exists [], prev, (c :: s). auto.
    + destruct (p c) eqn:E; [|discriminate].
      destruct (IH _ _ H) as (w & p' & s' & -> & Hw & Hk).
      exists (c :: w), p', s'. auto.
Qed.

(** A successful run consumed a prefix of characters of [P] and then
    ran the continuation. *)
Lemma run_consumes r : within P r -> forall k prev s res,
  Re.run r k prev s = Some res ->
  exists w prev' s', s = w ++ s' /\ Forall P w /\ k prev' s' = Some res.
Proof.
  induction r as [l|p|p|p| | |a IHa b IHb|a IHa b IHb]; simpl; intros W k prev s res H.
  - destruct (lit_consumes _ _ _ _ _ H) as (p' & Hs & Hk).
    exists l, p', (List.skipn (List.length l) s). auto.
  - destruct s as [|c s]; [discriminate|]. destruct (p c) eqn:E; [|discriminate].
    exists [c], (Some c), s. auto.
  - eapply star_greedy_consumes; eauto.
  - eapply star_lazy_consumes; eauto.
  - destruct (Re.at_bol prev); [|discriminate]. exists [], prev, s. auto.
  - destruct (Re.at_eol s); [|discriminate]. exists [], prev, s. auto.
  - destruct W as [Wa Wb].
    destruct (IHa Wa _ _ _ _ H) as (w1 & p1 & s1 & -> & H1 & K1).
    destruct (IHb Wb _ _ _ _ K1) as (w2 & p2 & s2 & -> & H2 & K2).
    exists (w1 ++ w2), p2, s2. rewrite <- List.app_assoc.
    split; [reflexivity|]. split; [apply Forall_app; auto | exact K2].
  - destruct W as [Wa Wb]. destruct (Re.run a k prev s) eqn:A.
    + inversion H; subst. eapply IHa; eauto.
    + eapply IHb; eauto.
Qed.

Lemma match_at_consumes r : within P r -> forall prev s prev' rest,
  Re.match_at r prev s = Some (prev', rest) ->
  exists w, s = w ++ rest /\ Forall P w.
Proof.
  intros W prev s prev' rest H.
  destruct (run_consumes r W _ _ _ _ H) as (w & p & s' & -> & Hw & Hk).
  inversion Hk; subst. exists w. auto.
Qed.

End Consumes.

(** The scan never runs out of fuel: any two amounts above the length
    of the subject give the same text. *)
Lemma sub_go_fuel r repl : forall f1 f2 prev s,
  (List.length s < f1)%nat -> (List.length s < f2)%nat ->
  Re.sub_go f1 r repl prev s = Re.sub_go f2 r repl prev s.
Proof.
  induction f1 as [|f1 IH]; intros f2 prev s H1 H2; [lia|].
  destruct f2 as [|f2]; [lia|]. cbn [Re.sub_go].
  assert (Hstep : match s with
                  | [] => []
                  | c :: s' => c :: Re.sub_go f1 r repl (Some c) s'
                  end =
                  match s with
                  | [] => []
                  | c :: s' => c :: Re.sub_go f2 r repl (Some c) s'
                  end).
  { destruct s as [|c s]; [reflexivity|]. simpl in H1, H2. f_equal. apply IH; lia. }
  destruct (Re.match_at r prev s) as [[prev' rest]|]; [|exact Hstep].
  destruct (List.length rest <? List.length s)%nat eqn:L; [|rewrite Hstep; reflexivity].
  apply Nat.ltb_lt in L. f_equal. apply IH; lia.
Qed.

(** ** Deleting white space *)

Lemma ws_del_refl s : ws_del s s.
Proof. induction s; constructor; assumption. Qed.

Lemma ws_del_trans s t u : ws_del s t -> ws_del t u -> ws_del s u.
Proof.
  intros H. revert u. induction H; intros u Hu.
  - exact Hu.
  - inversion Hu; subst; [apply ws_del_keep | apply ws_del_drop]; auto.
  - apply ws_del_drop; auto.
Qed.

Lemma ws_del_app_drop w s t :
  Forall (fun c => isspace c = true) w -> ws_del s t -> ws_del (w ++ s) t.
Proof. induction 1; simpl; intros; [|apply ws_del_drop]; auto. Qed.

Lemma ws_del_In s t c : ws_del s t -> In c t -> In c s.
Proof. induction 1; simpl; intuition. Qed.

Lemma lstrip_ws_del s : ws_del s (Str.lstrip s).
Proof.
  induction s as [|c s IH]; simpl; [constructor|].
  destruct (isspace c) eqn:E; [apply ws_del_drop; assumption | apply ws_del_refl].
Qed.

Lemma rstrip_ws_del s : ws_del s (Str.rstrip s).
Proof.
  induction s as [|c s IH]; simpl; [constructor|].
  destruct (Str.rstrip s) as [|x r].
  - destruct (isspace c) eqn:E; [apply ws_del_drop | apply ws_del_keep]; assumption.
  - apply ws_del_keep. assumption.
Qed.

Lemma strip_ws_del s : ws_del s (Str.strip s).
Proof. eapply ws_del_trans; [apply lstrip_ws_del | apply rstrip_ws_del]. Qed.

(** A substitution by the empty string of a pattern that consumes only
    white space deletes white space. *)
Lemma sub_go_ws_del r (W : within (fun c => isspace c = true) r) : forall fuel prev s,
  ws_del s (Re.sub_go fuel r [] prev s).
Proof.
  induction fuel as [|fuel IH]; intros prev s; simpl; [apply ws_del_refl|].
  assert (Hstep : ws_del s match s with
                           | [] => []
                           | c :: s' => c :: Re.sub_go fuel r [] (Some c) s'
                           end).
  { destruct s; constructor. apply IH. }
  destruct (Re.match_at r prev s) as [[prev' rest]|] eqn:M; [|exact Hstep].
  destruct (List.length rest <? List.length s)%nat; [|exact Hstep].
  destruct (match_at_consumes _ r W _ _ _ _ M) as (w & -> & Hw).
  apply ws_del_app_drop; [exact Hw | apply IH].
Qed.

Lemma trim_lines_ws_del s : ws_del s (trim_lines s).
Proof.
  apply sub_go_ws_del. simpl. repeat split; auto.
Qed.

(** ** Runs of newlines *)

Lemma ws_nl_ok_mono s : forall n n',
  (n <= n')%nat -> ws_nl_ok n' s = true -> ws_nl_ok n s = true.
Proof.
  induction s as [|c s IH]; intros n n' Hle H; simpl in *; [reflexivity|].
  destruct (is_nl c).
  - apply andb_true_iff in H. destruct H as [H1 H2]. apply andb_true_iff. split.
    + apply Nat.ltb_lt in H1. apply Nat.ltb_lt. lia.
    + apply (IH (S n) (S n')); [lia | exact H2].
  - destruct (isspace c); [apply (IH n n'); assumption | exact H].
Qed.

Lemma ws_del_nl_ok s t : ws_del s t -> forall n,
  ws_nl_ok n s = true -> ws_nl_ok n t = true.
Proof.
  induction 1 as [|c s t _ IH|c s t Hc _ IH]; intros n H; simpl in *.
  - reflexivity.
  - destruct (is_nl c).
    + apply andb_true_iff in H. destruct H as [H1 H2]. rewrite H1. simpl. auto.
    + destruct (isspace c); auto.
  - rewrite Hc in H. destruct (is_nl c).
    + apply andb_true_iff in H. destruct H as [_ H2].
      apply IH. apply (ws_nl_ok_mono s n (S n)); [lia | exact H2].
    + auto.
Qed.

Lemma ws_nl_ok_no_nl3 s : forall n, ws_nl_ok n s = true -> ~ has_nl3 s.
Proof.
  intros n H (a & b & ->). revert n H.
  induction a as [|c a IH]; intros n H; simpl in H.
  - change (is_nl NL) with true in H. simpl in H.
    destruct n as [|[|n]]; simpl in H; try discriminate.
  - destruct (is_nl c).
    + apply andb_true_iff in H. destruct H as [_ H]. eapply IH; eauto.
    + destruct (isspace c); eapply IH; eauto.
Qed.

(** The continuation of [blank_run] after its first newline. *)
Lemma blank_tail s : forall prev,
  match Re.star_greedy isspace (Re.run (Cls is_nl) Re.accept) prev s with
  | Some (_, rest) => lead_nl rest = false /\ (List.length rest < List.length s)%nat
  | None => lead_nl s = false
  end.
Proof.
  set (K := Re.run (Cls is_nl) Re.accept).
  assert (HK : forall prev c s, K prev (c :: s) = if is_nl c then Some (Some c, s) else None)
    by reflexivity.
  induction s as [|c s IH]; intros prev; cbn [Re.star_greedy]; [reflexivity|].
  rewrite HK. destruct (isspace c) eqn:E.
  - specialize (IH (Some c)).
    destruct (Re.star_greedy isspace K (Some c) s) as [[p rest]|].
    + destruct IH. split; [assumption | simpl; lia].
    + destruct (is_nl c) eqn:N; cbn [lead_nl]; rewrite ?N, ?E;
        [split; [assumption | simpl; lia] | assumption].
  - destruct (is_nl c) eqn:N; [|cbn [lead_nl]; rewrite N, E; reflexivity].
    apply is_nl_isspace in N. congruence.
Qed.

Lemma match_blank_run prev s :
  Re.match_at blank_run prev s =
  match s with
  | c :: s' =>
      if is_nl c
      then Re.star_greedy isspace (Re.run (Cls is_nl) Re.accept) (Some c) s'
      else None
  | [] => None
  end.
Proof. reflexivity. Qed.

(** After line 289 no run of white space holds more than two newlines. *)
Lemma collapse_blank_go fuel : forall s prev n,
  (List.length s < fuel)%nat ->
  n = 0%nat \/ ((n <= 2)%nat /\ lead_nl s = false) ->
  ws_nl_ok n (Re.sub_go fuel blank_run [NL; NL] prev s) = true.
Proof.
  induction fuel as [|fuel IH]; intros s prev n Hlen Hinv; [lia|].
  cbn [Re.sub_go]. rewrite match_blank_run.
  destruct s as [|c s]; [reflexivity|]. simpl in Hlen.
  destruct (is_nl c) eqn:N.
  - assert (n = 0%nat) as ->.
    { destruct Hinv as [?|[_ Hl]]; [assumption|]. simpl in Hl. rewrite N in Hl. discriminate. }
    pose proof (blank_tail s (Some c)) as T.
    destruct (Re.star_greedy isspace (Re.run (Cls is_nl) Re.accept) (Some c) s)
      as [[p rest]|].
    + destruct T as [Tl Tn].
      replace (List.length rest <? List.length (c :: s))%nat with true
        by (symmetry; apply Nat.ltb_lt; simpl; lia).
      change ([NL; NL] ++ ?x) with (NL :: NL :: x). cbn [ws_nl_ok].
      change (is_nl NL) with true. cbn. apply IH; [lia | right; split; [lia | exact Tl]].
    + cbn [ws_nl_ok]. rewrite N. cbn. apply IH; [lia | right; split; [lia | exact T]].
  - cbn [ws_nl_ok]. rewrite N. destruct (isspace c) eqn:E.
    + apply IH; [lia|]. destruct Hinv as [?|[Hn Hl]]; [left; assumption|].
      right. split; [assumption|]. simpl in Hl. rewrite N, E in Hl. exact Hl.
    + apply IH; [lia | left; reflexivity].
Qed.

Lemma collapse_blank_ok s : ws_nl_ok 0 (collapse_blank s) = true.
Proof. apply collapse_blank_go; [simpl; lia | left; reflexivity]. Qed.

(** C9: the output of [_clean_text] never has three newline characters
    in a row, whatever the input. *)
Theorem clean_text_no_three_newlines (x : text) : ~ has_nl3 (_clean_text x).
Proof.
  unfold _clean_text. destruct (negb (Str.truthy x)).
  - intros (a & b & H). destruct a; discriminate.
  - apply (ws_nl_ok_no_nl3 _ 0%nat).
    eapply ws_del_nl_ok; [|apply collapse_blank_ok].
    eapply ws_del_trans; [apply trim_lines_ws_del | apply strip_ws_del].
Qed.

(** ** Rules that cannot start *)

Lemma lit_not_prefix l : forall k prev s,
  is_prefix l s = false -> Re.lit l k prev s = None.
Proof.
  induction l as [|x l IH]; intros k prev s H; simpl in *; [discriminate|].
  destruct s as [|c s]; [reflexivity|].
  destruct (x =? c); simpl in H; [apply IH; exact H | reflexivity].
Qed.

Lemma run_starts r : forall k prev s,
  starts r s = false -> Re.run r k prev s = None.
Proof.
  induction r as [l|p|p|p| | |a IHa b IHb|a IHa b IHb]; simpl; intros k prev s H;
    try discriminate.
  - apply lit_not_prefix. exact H.
  - destruct s as [|c s]; [reflexivity|]. rewrite H. reflexivity.
  - apply IHa. exact H.
  - apply orb_false_iff in H. destruct H as [Ha Hb].
    rewrite (IHa _ _ _ Ha). apply IHb. exact Hb.
Qed.

Lemma sub_go_quiet r repl : forall fuel prev s,
  never_starts r s = true -> Re.sub_go fuel r repl prev s = s.
Proof.
  induction fuel as [|fuel IH]; intros prev s H; cbn [Re.sub_go]; [reflexivity|].
  assert (Hs : starts r s = false).
  { destruct s; simpl in H; apply andb_true_iff in H; destruct H as [H _];
      apply negb_true_iff in H; exact H. }
  unfold Re.match_at. rewrite (run_starts _ _ _ _ Hs).
  destruct s as [|c s]; [reflexivity|]. f_equal. apply IH.
  simpl in H. apply andb_true_iff in H. apply H.
Qed.

Lemma sub_quiet r repl s : never_starts r s = true -> Re.sub r repl s = s.
Proof. apply sub_go_quiet. Qed.

Lemma head_lit_starts r : forall l s,
  head_lit r = Some l -> starts r s = is_prefix l s.
Proof.
  induction r; simpl; intros l0 s H; try discriminate.
  - inversion H. reflexivity.
  - apply IHr1. exact H.
Qed.

Lemma never_starts_occurs r l (Hl : head_lit r = Some l) : forall s,
  occurs l s = false -> never_starts r s = true.
Proof.
  induction s as [|c s IH]; simpl; intros H; apply orb_false_iff in H;
    destruct H as [H1 H2]; rewrite (head_lit_starts _ _ _ Hl), H1; simpl; auto.
Qed.

Lemma no_char_occurs c l s : no_char c s = true -> occurs (c :: l) s = false.
Proof.
  induction s as [|x s IH]; simpl; intros H; [reflexivity|].
  apply andb_true_iff in H. destruct H as [H1 H2].
  apply negb_true_iff in H1. rewrite N.eqb_sym, H1. simpl. apply IH. exact H2.
Qed.

Lemma no_char_In c s : no_char c s = true <-> ~ In c s.
Proof.
  unfold no_char. rewrite List.forallb_forall. split.
  - intros H Hin. specialize (H c Hin). rewrite N.eqb_refl in H. discriminate.
  - intros H x Hx. apply negb_true_iff. apply N.eqb_neq. intros ->. auto.
Qed.

Lemma apply_rules_quiet rules s :
  Forall (fun rule => never_starts (fst rule) s = true) rules ->
  apply_rules rules s = s.
Proof.
  unfold apply_rules. induction 1 as [|rule rules H _ IH]; simpl; [reflexivity|].
  rewrite (sub_quiet _ _ _ H). exact IH.
Qed.

Lemma decode_table_quiet table s :
  Forall (fun e => exists l, fst e = AMP :: l) table ->
  no_char AMP s = true ->
  List.fold_left (fun t e => replace (fst e) (snd e) t) table s = s.
Proof.
  intros H Hs. induction H as [|e table [l He] _ IH]; simpl; [reflexivity|].
  unfold replace at 2. rewrite sub_quiet; [exact IH|].
  apply (never_starts_occurs _ (fst e)); [reflexivity|].
  rewrite He. apply no_char_occurs. exact Hs.
Qed.

Lemma decode_quiet s : no_char AMP s = true -> decode_entities s = s.
Proof.
  apply decode_table_quiet. unfold entity_table.
  repeat (constructor; [eexists; reflexivity|]). constructor.
Qed.

Lemma boilerplate_heads :
  Forall (fun rule => exists a, head_lit (fst rule) = Some a /\ In a anchors)
         boilerplate_rules.
Proof.
  unfold boilerplate_rules, boilerplate_patterns. cbn [List.map].
  repeat (constructor;
          [eexists; split;
           [reflexivity
           | unfold anchors; cbn [List.map In];
             repeat (try (left; reflexivity); right); contradiction]|]).
  constructor.
Qed.

Lemma boilerplate_quiet s : no_anchor s = true -> apply_rules boilerplate_rules s = s.
Proof.
  intros H. apply apply_rules_quiet.
  eapply List.Forall_impl; [|apply boilerplate_heads].
  intros rule (a & Ha & Hin). apply (never_starts_occurs _ a Ha).
  unfold no_anchor in H. rewrite List.forallb_forall in H.
  apply negb_true_iff. apply H. exact Hin.
Qed.

Lemma markup_quiet s : no_char LT s = true -> apply_rules markup_rules s = s.
Proof.
  intros H. apply apply_rules_quiet.
  assert (Hh : Forall (fun rule => exists l, head_lit (fst rule) = Some (LT :: l))
                      markup_rules).
  { unfold markup_rules. repeat (constructor; [eexists; reflexivity|]). constructor. }
  eapply List.Forall_impl; [|exact Hh].
  intros rule (l & Hl). apply (never_starts_occurs _ _ Hl).
  apply no_char_occurs. exact H.
Qed.

Lemma collapse_blank_quiet s : no_char NL s = true -> collapse_blank s = s.
Proof.
  intros H. apply sub_quiet. induction s as [|c s IH]; [reflexivity|].
  simpl in H. apply andb_true_iff in H. destruct H as [H1 H2].
  cbn [never_starts]. rewrite (IH H2). cbn. unfold is_nl.
  rewrite H1. reflexivity.
Qed.

(** ** Stripping *)

Lemma lstrip_length s : (List.length (Str.lstrip s) <= List.length s)%nat.
Proof. induction s as [|c s IH]; simpl; [lia|]. destruct (isspace c); simpl; lia. Qed.

Lemma lstrip_not_ws s : starts_ws (Str.lstrip s) = false.
Proof.
  induction s as [|c s IH]; simpl; [reflexivity|].
  destruct (isspace c) eqn:E; [exact IH | simpl; exact E].
Qed.

Lemma lstrip_id s : starts_ws s = false -> Str.lstrip s = s.
Proof. destruct s as [|c s]; simpl; [reflexivity|]. intros ->. reflexivity. Qed.

Lemma rstrip_cons c s :
  Str.rstrip s <> [] -> Str.rstrip (c :: s) = c :: Str.rstrip s.
Proof. simpl. destruct (Str.rstrip s); [congruence | reflexivity]. Qed.

Lemma rstrip_cons_solid c s :
  isspace c = false -> Str.rstrip (c :: s) = c :: Str.rstrip s.
Proof. simpl. intros ->. destruct (Str.rstrip s); reflexivity. Qed.

Lemma lstrip_nil_rstrip s : Str.lstrip s = [] -> Str.rstrip s = [].
Proof.
  induction s as [|c s IH]; simpl; [reflexivity|].
  destruct (isspace c); [|discriminate]. intros H. rewrite (IH H). reflexivity.
Qed.

Lemma lstrip_cons_rstrip s : Str.lstrip s <> [] -> Str.rstrip s <> [].
Proof.
  induction s as [|c s IH]; simpl; [congruence|].
  destruct (isspace c) eqn:E.
  - intros H. specialize (IH H). destruct (Str.rstrip s); congruence.
  - intros _. destruct (Str.rstrip s); congruence.
Qed.

Lemma rstrip_head s : starts_ws s = false -> starts_ws (Str.rstrip s) = false.
Proof.
  destruct s as [|c s]; simpl; [reflexivity|]. intros E. rewrite E.
  destruct (Str.rstrip s); simpl; exact E.
Qed.

Lemma rstrip_idem s : Str.rstrip (Str.rstrip s) = Str.rstrip s.
Proof.
  induction s as [|c s IH]; [reflexivity|].
  cbn [Str.rstrip]. destruct (Str.rstrip s) as [|x r] eqn:R.
  - destruct (isspace c) eqn:E; [reflexivity|]. simpl. rewrite E. reflexivity.
  - rewrite rstrip_cons by (rewrite IH; discriminate). rewrite IH. reflexivity.
Qed.

Lemma strip_idem s : Str.strip (Str.strip s) = Str.strip s.
Proof.
  unfold Str.strip. rewrite (lstrip_id (Str.rstrip _)).
  - apply rstrip_idem.
  - apply rstrip_head, lstrip_not_ws.
Qed.

Lemma rstrip_prefix s : exists w, s = Str.rstrip s ++ w.
Proof.
  induction s as [|c s [w IH]]; [exists []; reflexivity|].
  cbn [Str.rstrip]. destruct (Str.rstrip s) as [|x r] eqn:R.
  - destruct (isspace c); [exists (c :: s) | exists s]; reflexivity.
  - exists w. simpl. f_equal. exact IH.
Qed.

Lemma is_prefix_app l : forall s w, is_prefix l s = true -> is_prefix l (s ++ w) = true.
Proof.
  induction l as [|x l IH]; intros s w H; [reflexivity|].
  destruct s as [|c s]; simpl in *; [discriminate|].
  apply andb_true_iff in H. destruct H as [H1 H2]. rewrite H1. simpl. apply IH. exact H2.
Qed.

Lemma occurs_app l s w : occurs l s = true -> occurs l (s ++ w) = true.
Proof.
  induction s as [|c s IH]; simpl; intros H; apply orb_true_iff in H.
  - destruct H as [H|H]; [|discriminate]. destruct l; [|discriminate].
    destruct w; reflexivity.
  - apply orb_true_iff. destruct H as [H|H].
    + left. apply (is_prefix_app l (c :: s) w H).
    + right. apply IH. exact H.
Qed.

Lemma occurs_lstrip l s : occurs l (Str.lstrip s) = true -> occurs l s = true.
Proof.
  induction s as [|c s IH]; simpl; [auto|]. destruct (isspace c); [|auto].
  intros H. rewrite (IH H). apply orb_true_r.
Qed.

Lemma occurs_strip l s : occurs l s = false -> occurs l (Str.strip s) = false.
Proof.
  intros H. destruct (occurs l (Str.strip s)) eqn:E; [|reflexivity].
  unfold Str.strip in E. destruct (rstrip_prefix (Str.lstrip s)) as [w Hw].
  apply (occurs_app _ _ w) in E. rewrite <- Hw in E.
  apply occurs_lstrip in E. congruence.
Qed.

Lemma no_anchor_strip s : no_anchor s = true -> no_anchor (Str.strip s) = true.
Proof.
  unfold no_anchor. rewrite !List.forallb_forall. intros H a Ha.
  specialize (H a Ha). apply negb_true_iff in H. apply negb_true_iff.
  apply occurs_strip. exact H.
Qed.

Lemma no_char_ws_del c s t : ws_del s t -> no_char c s = true -> no_char c t = true.
Proof.
  rewrite !no_char_In. intros D H Hin. apply H. eapply ws_del_In; eauto.
Qed.

(** ** Single spacing *)

Lemma spaced_weaken s : single_spaced true s = true -> single_spaced false s = true.
Proof.
  destruct s as [|c s]; simpl; [auto|]. destruct (isspace c); [|auto].
  rewrite andb_false_r. discriminate.
Qed.

Lemma spaced_any b s : single_spaced b s = true -> single_spaced false s = true.
Proof. destruct b; [apply spaced_weaken | auto]. Qed.

Lemma spaced_true_head s : single_spaced true s = true -> starts_ws s = false.
Proof.
  destruct s as [|c s]; simpl; [reflexivity|]. destruct (isspace c); [|reflexivity].
  rewrite andb_false_r. discriminate.
Qed.

Lemma spaced_lstrip s : forall b,
  single_spaced b s = true -> single_spaced false (Str.lstrip s) = true.
Proof.
  induction s as [|c s IH]; intros b H; [reflexivity|].
  cbn [Str.lstrip]. destruct (isspace c) eqn:E.
  - simpl in H. rewrite E in H. apply andb_true_iff in H. destruct H as [_ H].
    apply (IH true H).
  - apply (spaced_any b). exact H.
Qed.

Lemma spaced_rstrip s : forall b,
  single_spaced b s = true -> single_spaced b (Str.rstrip s) = true.
Proof.
  induction s as [|c s IH]; intros b H; [reflexivity|].
  cbn [Str.rstrip]. cbn [single_spaced] in H.
  destruct (Str.rstrip s) as [|x r] eqn:R.
  - destruct (isspace c) eqn:E; [reflexivity|]. simpl. rewrite E. reflexivity.
  - cbn [single_spaced]. destruct (isspace c).
    + apply andb_true_iff in H. destruct H as [H1 H2]. rewrite H1. apply (IH true H2).
    + apply (IH false H).
Qed.

Lemma spaced_strip s b : single_spaced b s = true -> single_spaced false (Str.strip s) = true.
Proof. intros H. apply spaced_rstrip. apply (spaced_lstrip s b H). Qed.

Lemma spaced_no_nl s : forall b, single_spaced b s = true -> no_char NL s = true.
Proof.
  induction s as [|c s IH]; intros b H; [reflexivity|].
  simpl in *. destruct (isspace c) eqn:E.
  - apply andb_true_iff in H. destruct H as [H1 H2].
    apply andb_true_iff in H1. destruct H1 as [H1 _].
    apply N.eqb_eq in H1. subst c. simpl. apply (IH true H2).
  - rewrite (IH false H), andb_true_r. apply negb_true_iff.
    destruct (c =? NL) eqn:N; [|reflexivity].
    apply is_nl_isspace in N. congruence.
Qed.

(** ** Line 240: collapsing white space *)

Lemma match_ws_plus prev s :
  Re.match_at ws_plus prev s =
  match s with
  | c :: s' => if isspace c then Re.star_greedy isspace Re.accept (Some c) s' else None
  | [] => None
  end.
Proof. reflexivity. Qed.

(** Greedy white space before the end of the pattern takes the whole
    run. *)
Lemma greedy_ws_accept s : forall c0,
  exists c, Re.star_greedy isspace Re.accept (Some c0) s = Some (Some c, Str.lstrip s)
            /\ (c = c0 \/ In c s).
Proof.
  induction s as [|x s IH]; intros c0; cbn [Re.star_greedy Str.lstrip].
  - exists c0. auto.
  - destruct (isspace x) eqn:E.
    + destruct (IH x) as (c & -> & Hc). exists c. split; [reflexivity|].
      right. destruct Hc as [-> | Hc]; [left | right]; auto.
    + exists c0. auto.
Qed.

Lemma collapse_ws_go_spaced fuel : forall s prev b,
  (List.length s < fuel)%nat ->
  (b = true -> starts_ws s = false) ->
  single_spaced b (Re.sub_go fuel ws_plus [SP] prev s) = true.
Proof.
  induction fuel as [|fuel IH]; intros s prev b Hlen Hb; [lia|].
  cbn [Re.sub_go]. rewrite match_ws_plus.
  destruct s as [|c s]; [reflexivity|]. simpl in Hlen.
  pose proof (lstrip_length s) as Hl.
  destruct (isspace c) eqn:E.
  - destruct (greedy_ws_accept s c) as (c' & -> & _).
    replace (List.length (Str.lstrip s) <? List.length (c :: s))%nat with true
      by (symmetry; apply Nat.ltb_lt; simpl; lia).
    destruct b; [specialize (Hb eq_refl); simpl in Hb; congruence|].
    change ([SP] ++ ?x) with (SP :: x). cbn [single_spaced].
    change (isspace SP) with true. cbn.
    apply IH; [lia | intros _; apply lstrip_not_ws].
  - cbn [single_spaced]. rewrite E. apply IH; [lia | discriminate].
Qed.

Lemma collapse_ws_spaced s : single_spaced false (collapse_ws s) = true.
Proof. apply collapse_ws_go_spaced; [simpl; lia | discriminate]. Qed.

Lemma collapse_ws_go_id fuel : forall s prev b,
  single_spaced b s = true -> Re.sub_go fuel ws_plus [SP] prev s = s.
Proof.
  induction fuel as [|fuel IH]; intros s prev b H; cbn [Re.sub_go]; [reflexivity|].
  rewrite match_ws_plus. destruct s as [|c s]; [reflexivity|].
  cbn [single_spaced] in H. destruct (isspace c) eqn:E.
  - apply andb_true_iff in H. destruct H as [H1 H2].
    apply andb_true_iff in H1. destruct H1 as [H1 _]. apply N.eqb_eq in H1. subst c.
    destruct (greedy_ws_accept s SP) as (c' & -> & _).
    rewrite (lstrip_id s (spaced_true_head s H2)).
    replace (List.length s <? List.length (SP :: s))%nat with true
      by (symmetry; apply Nat.ltb_lt; simpl; lia).
    simpl. f_equal. apply (IH _ _ true H2).
  - f_equal. apply (IH _ _ false H).
Qed.

Lemma collapse_ws_id s b : single_spaced b s = true -> collapse_ws s = s.
Proof. apply collapse_ws_go_id. Qed.

Lemma sub_go_In r repl c : forall fuel prev s,
  In c (Re.sub_go fuel r repl prev s) -> In c repl \/ In c s.
Proof.
  induction fuel as [|fuel IH]; intros prev s H; cbn [Re.sub_go] in H; [auto|].
  assert (Hstep : In c match s with
                       | [] => []
                       | x :: s' => x :: Re.sub_go fuel r repl (Some x) s'
                       end -> In c repl \/ In c s).
  { destruct s as [|x s]; [auto|]. intros [-> | Hin]; [right; left; reflexivity|].
    destruct (IH _ _ Hin); [left | right; right]; assumption. }
  destruct (Re.match_at r prev s) as [[prev' rest]|] eqn:M; [|auto].
  assert (W : within (fun _ => True) r).
  { clear. induction r; simpl; auto. apply List.Forall_forall. auto. }
  destruct (match_at_consumes _ r W _ _ _ _ M) as (w & Hs & _).
  destruct (List.length rest <? List.length s)%nat.
  - apply in_app_iff in H. destruct H as [H|H]; [auto|].
    destruct (IH _ _ H); [auto|]. right. rewrite Hs. apply in_app_iff. auto.
  - apply in_app_iff in H. destruct H as [H|H]; auto.
Qed.

Lemma collapse_ws_no_char c s :
  c <> SP -> no_char c s = true -> no_char c (collapse_ws s) = true.
Proof.
  rewrite !no_char_In. intros Hc H Hin. apply sub_go_In in Hin.
  destruct Hin as [[Heq | []] | Hin]; [congruence | auto].
Qed.

(** ** Line 290 on a text without newlines *)

Lemma match_line_edges prev s :
  Re.match_at line_edges prev s =
  match (if Re.at_bol prev then Re.match_at ws_plus prev s else None) with
  | Some x => Some x
  | None =>
      match s with
      | c :: s' =>
          if isspace c
          then Re.star_greedy isspace (Re.run Eol Re.accept) (Some c) s'
          else None
      | [] => None
      end
  end.
Proof. reflexivity. Qed.

Lemma greedy_ws_eol s : no_char NL s = true -> forall prev,
  match Str.lstrip s with
  | [] => exists p, Re.star_greedy isspace (Re.run Eol Re.accept) prev s = Some (p, [])
  | _ :: _ => Re.star_greedy isspace (Re.run Eol Re.accept) prev s = None
  end.
Proof.
  set (K := Re.run Eol Re.accept).
  assert (HK : forall prev c s, K prev (c :: s) = if is_nl c then Some (prev, c :: s) else None)
    by reflexivity.
  induction s as [|c s IH]; intros H prev; cbn [Re.star_greedy Str.lstrip].
  - exists prev. reflexivity.
  - simpl in H. apply andb_true_iff in H. destruct H as [H1 H2].
    apply negb_true_iff in H1. rewrite HK. unfold is_nl. rewrite H1.
    destruct (isspace c) eqn:E; [|reflexivity].
    specialize (IH H2 (Some c)). destruct (Str.lstrip s).
    + destruct IH as [p ->]. exists p. reflexivity.
    + rewrite IH. reflexivity.
Qed.

Lemma line_edges_nil fuel prev : Re.sub_go fuel line_edges [] prev [] = [].
Proof. destruct fuel; [reflexivity|]. cbn. destruct (Re.at_bol prev); reflexivity. Qed.

(** Away from a line start, and with no newline left, the rule only
    removes the white space at the end. *)
Lemma trim_lines_mid fuel : forall s prev,
  (List.length s < fuel)%nat ->
  no_char NL s = true -> Re.at_bol prev = false ->
  Re.sub_go fuel line_edges [] prev s = Str.rstrip s.
Proof.
  induction fuel as [|fuel IH]; intros s prev Hlen H Hp; [lia|].
  cbn [Re.sub_go]. rewrite match_line_edges, Hp.
  destruct s as [|c s]; [reflexivity|]. simpl in Hlen.
  pose proof H as Hcs. simpl in H. apply andb_true_iff in H. destruct H as [H1 H2].
  assert (Hc : Re.at_bol (Some c) = false) by (apply negb_true_iff in H1; exact H1).
  destruct (isspace c) eqn:E.
  - pose proof (greedy_ws_eol s H2 (Some c)) as G.
    destruct (Str.lstrip s) as [|x r] eqn:L.
    + destruct G as [p ->]. cbn [List.length Nat.ltb Nat.leb].
      rewrite line_edges_nil. simpl. rewrite (lstrip_nil_rstrip s L), E. reflexivity.
    + rewrite G, rstrip_cons by (apply lstrip_cons_rstrip; rewrite L; discriminate).
      f_equal. apply IH; [lia | assumption | assumption].
  - rewrite rstrip_cons_solid by assumption. f_equal. apply IH; [lia | assumption | assumption].
Qed.

Lemma trim_lines_no_nl s : no_char NL s = true -> trim_lines s = Str.strip s.
Proof.
  intros H. unfold trim_lines, Re.sub, Str.strip. cbn [Re.sub_go].
  rewrite match_line_edges. cbn [Re.at_bol]. rewrite match_ws_plus.
  destruct s as [|c s]; [reflexivity|].
  pose proof H as Hcs. simpl in H. apply andb_true_iff in H. destruct H as [H1 H2].
  assert (Hc : Re.at_bol (Some c) = false) by (apply negb_true_iff in H1; exact H1).
  cbn [Str.lstrip]. destruct (isspace c) eqn:E.
  - destruct (greedy_ws_accept s c) as (c' & -> & Hc').
    pose proof (lstrip_length s) as Hl.
    replace (List.length (Str.lstrip s) <? List.length (c :: s))%nat with true
      by (symmetry; apply Nat.ltb_lt; simpl; lia).
    cbn [app]. apply trim_lines_mid; [simpl; lia | | ].
    + apply (no_char_ws_del NL s); [apply lstrip_ws_del | exact H2].
    + destruct Hc' as [-> | Hin]; [exact Hc|].
      apply no_char_In in H2. simpl. unfold is_nl. apply N.eqb_neq. intros ->. auto.
  - rewrite rstrip_cons_solid by assumption. f_equal.
    apply trim_lines_mid; [simpl; lia | assumption | assumption].
Qed.

(** ** The normalizer on plain prose *)

(** Entities are decoded and the white space they leave is collapsed. *)
Example clean_text_entities :
  _clean_text (txt "Hello&nbsp;World&#8217;s&nbsp;&nbsp;test") = txt "Hello World's test".
Proof. vm_compute. reflexivity. Qed.

(** On a text with no ampersand and no angle bracket, in which no
    anchor phrase shows once the white space is collapsed, only lines
    240 and 290-291 act. *)
Lemma clean_text_plain x :
  x <> [] ->
  no_char AMP x = true -> no_char LT x = true ->
  no_anchor (collapse_ws x) = true ->
  _clean_text x = Str.strip (collapse_ws x).
Proof.
  intros Hx Ha Hl Hn. unfold _clean_text.
  destruct x as [|c x]; [congruence|]. cbn [Str.truthy negb].
  rewrite (decode_quiet _ Ha), (boilerplate_quiet _ Hn).
  rewrite markup_quiet by (apply collapse_ws_no_char; [discriminate | exact Hl]).
  pose proof (spaced_no_nl _ _ (collapse_ws_spaced (c :: x))) as Hnl.
  rewrite (collapse_blank_quiet _ Hnl), (trim_lines_no_nl _ Hnl).
  apply strip_idem.
Qed.

(** [_clean_text] is idempotent on every text that has no ampersand and
    no angle bracket and in which, once its white space is collapsed, no
    boilerplate anchor phrase occurs. *)
Lemma clean_text_idempotent_on_plain_text (x : text) :
  no_char AMP x = true -> no_char LT x = true ->
  no_anchor (collapse_ws x) = true ->
  _clean_text (_clean_text x) = _clean_text x.
Proof.
  intros Ha Hl Hn. destruct x as [|c x]; [reflexivity|].
  rewrite (clean_text_plain (c :: x)) by (assumption || discriminate).
  set (y := collapse_ws (c :: x)) in *.
  assert (Hy : single_spaced false y = true) by apply collapse_ws_spaced.
  assert (Hz : single_spaced false (Str.strip y) = true) by apply (spaced_strip y false Hy).
  destruct (Str.strip y) as [|d z] eqn:Z; [reflexivity|]. rewrite <- Z in *.
  rewrite clean_text_plain.
  - rewrite (collapse_ws_id _ _ Hz). apply strip_idem.
  - rewrite Z. discriminate.
  - apply (no_char_ws_del AMP y); [apply strip_ws_del|].
    apply collapse_ws_no_char; [discriminate | exact Ha].
  - apply (no_char_ws_del LT y); [apply strip_ws_del|].
    apply collapse_ws_no_char; [discriminate | exact Hl].
  - rewrite (collapse_ws_id _ _ Hz). apply no_anchor_strip. exact Hn.
Qed.

(** C5, as stated, fails: a doubly escaped ampersand loses one level of
    escaping at each pass. *)
Lemma clean_text_not_idempotent :
  _clean_text (txt "&amp;amp;") = txt "&amp;"
  /\ _clean_text (_clean_text (txt "&amp;amp;")) = txt "&"
  /\ _clean_text (_clean_text (txt "&amp;amp;")) <> _clean_text (txt "&amp;amp;").
Proof.
  split; [vm_compute; reflexivity|].
  split; [vm_compute; reflexivity | vm_compute; discriminate].
Qed.

(** C2 at a text whose first line is a boilerplate line: line 240 has
    already joined the lines when the line-anchored rule runs, so the
    rule deletes through the end of the text; with the boilerplate
    rules ahead of any collapsing, the second line is kept. *)
Theorem collapse_runs_before_boilerplate :
  collapse_ws (decode_entities Sample.two_lines) = txt "Facebook page Body text"
  /\ _clean_text Sample.two_lines = []
  /\ apply_rules boilerplate_rules (decode_entities Sample.two_lines) = NL :: txt "Body text"
  /\ clean_text_claimed_order Sample.two_lines = txt "Body text"
  /\ forall x, no_char NL (collapse_ws x) = true.
Proof.
  repeat split; try (vm_compute; reflexivity).
  intros x. apply (spaced_no_nl _ false), collapse_ws_spaced.
Qed.

(** * Further properties *)

(** ** Line 290 on any text *)

Lemma blocked_cons_ws c s :
  isspace c = true -> blocked (c :: s) = true ->
  is_nl c = false /\ blocked s = true.
Proof.
  unfold blocked. cbn [lead_nl Str.lstrip]. intros E H. rewrite E in H.
  destruct (is_nl c); [discriminate|]. auto.
Qed.

(** The white space that greedy [\s*] takes before [$]: when the match
    succeeds it stops at the end of the text or at the last newline of
    the run; it fails exactly on a run that is [blocked]. *)
Lemma greedy_eol s : forall prev,
  match Re.star_greedy isspace (Re.run Eol Re.accept) prev s with
  | Some (_, rest) =>
      (List.length rest <= List.length s)%nat /\
      (rest = [] \/ exists c s', rest = c :: s' /\ is_nl c = true /\ blocked s' = true)
  | None => blocked s = true
  end.
Proof.
  set (K := Re.run Eol Re.accept).
  assert (HK : forall prev c s, K prev (c :: s) = if is_nl c then Some (prev, c :: s) else None)
    by reflexivity.
  induction s as [|c s IH]; intros prev; cbn [Re.star_greedy].
  - cbn. auto.
  - rewrite HK. destruct (isspace c) eqn:E.
    + specialize (IH (Some c)).
      destruct (Re.star_greedy isspace K (Some c) s) as [[p rest]|].
      * destruct IH as [Hl Hr]. split; [simpl; lia | exact Hr].
      * destruct (is_nl c) eqn:N.
        -- split; [lia|]. right. exists c, s. auto.
        -- unfold blocked in *. cbn [lead_nl Str.lstrip]. rewrite N, E. exact IH.
    + destruct (is_nl c) eqn:N; [apply is_nl_isspace in N; congruence|].
      unfold blocked. cbn [lead_nl Str.lstrip]. rewrite N, E. reflexivity.
Qed.

Lemma greedy_eol_blocked s : forall prev,
  blocked s = true -> Re.star_greedy isspace (Re.run Eol Re.accept) prev s = None.
Proof.
  set (K := Re.run Eol Re.accept).
  assert (HK : forall prev c s, K prev (c :: s) = if is_nl c then Some (prev, c :: s) else None)
    by reflexivity.
  induction s as [|c s IH]; intros prev H; [discriminate|].
  cbn [Re.star_greedy]. rewrite HK. destruct (isspace c) eqn:E.
  - destruct (blocked_cons_ws c s E H) as [N B]. rewrite (IH (Some c) B), N. reflexivity.
  - destruct (is_nl c) eqn:N; [apply is_nl_isspace in N; congruence | reflexivity].
Qed.

Lemma match_line_edges_solid prev c s :
  isspace c = false -> Re.match_at line_edges prev (c :: s) = None.
Proof.
  intros E. rewrite match_line_edges, match_ws_plus, E.
  destruct (Re.at_bol prev); reflexivity.
Qed.

Lemma match_line_edges_bol prev c s :
  isspace c = true -> Re.at_bol prev = true ->
  exists c', Re.match_at line_edges prev (c :: s) = Some (Some c', Str.lstrip s).
Proof.
  intros E B. rewrite match_line_edges, match_ws_plus, E, B.
  destruct (greedy_ws_accept s c) as (c' & -> & _). exists c'. reflexivity.
Qed.

Lemma match_line_edges_mid prev c s :
  isspace c = true -> Re.at_bol prev = false ->
  Re.match_at line_edges prev (c :: s) =
  Re.star_greedy isspace (Re.run Eol Re.accept) (Some c) s.
Proof. intros E B. rewrite match_line_edges, B, E. reflexivity. Qed.

Lemma solid_not_bol x : isspace x = false -> Re.at_bol (Some x) = false.
Proof.
  intros E. simpl. destruct (is_nl x) eqn:N; [apply is_nl_isspace in N; congruence | reflexivity].
Qed.

(** Whatever the state of the scan, what it still puts out is tidy. *)
Lemma trim_lines_go_tidy fuel : forall prev o s,
  (List.length s < fuel)%nat -> scan_inv prev o s ->
  tidy_from o (Re.sub_go fuel line_edges [] prev s) = true.
Proof.
  induction fuel as [|fuel IH]; intros prev o s Hlen Hinv; [lia|].
  destruct s as [|c s].
  - rewrite line_edges_nil. simpl.
    destruct Hinv as [[-> Hp] | [(x & _ & _ & _ & B) | [[_ Ho] | (_ & c & s' & Hs & _)]]].
    + destruct prev; [rewrite Hp|]; reflexivity.
    + discriminate B.
    + specialize (Ho eq_refl). destruct o; [rewrite Ho|]; reflexivity.
    + discriminate Hs.
  - simpl in Hlen. cbn [Re.sub_go]. destruct (isspace c) eqn:E.
    + (* a white space character *)
      pose proof (lstrip_length s) as Hl.
      assert (Hbol : Re.at_bol prev = true ->
                     (Str.lstrip s = [] ->
                      match o with Some x => isspace x = false | None => True end) ->
                     tidy_from o
                       match Re.match_at line_edges prev (c :: s) with
                       | Some (prev', rest) =>
                           if (List.length rest <? List.length (c :: s))%nat
                           then [] ++ Re.sub_go fuel line_edges [] prev' rest
                           else [] ++ c :: Re.sub_go fuel line_edges [] (Some c) s
                       | None => c :: Re.sub_go fuel line_edges [] (Some c) s
                       end = true).
      { intros B Ho. destruct (match_line_edges_bol prev c s E B) as [c' ->].
        replace (List.length (Str.lstrip s) <? List.length (c :: s))%nat with true
          by (symmetry; apply Nat.ltb_lt; simpl; lia).
        cbn [app]. apply IH; [lia|]. right. right. left.
        split; [apply lstrip_not_ws | exact Ho]. }
      assert (Hcopy : forall x, o = Some x ->
                      Re.match_at line_edges prev (c :: s) = None ->
                      (if is_nl c then isspace x = false else is_nl x = false) ->
                      blocked s = true ->
                      tidy_from o
                        match Re.match_at line_edges prev (c :: s) with
                        | Some (prev', rest) =>
                            if (List.length rest <? List.length (c :: s))%nat
                            then [] ++ Re.sub_go fuel line_edges [] prev' rest
                            else [] ++ c :: Re.sub_go fuel line_edges [] (Some c) s
                        | None => c :: Re.sub_go fuel line_edges [] (Some c) s
                        end = true).
      { intros x -> -> Hx B. cbn [tidy_from]. rewrite E.
        rewrite IH; [|lia|right; left; exists c; auto].
        destruct (is_nl c); rewrite Hx; reflexivity. }
      destruct Hinv as [[-> Hp] | [(x & -> & -> & Hx & B) | [[Hs _] | ((x & -> & Hx) & c0 & s' & Hs & N & B)]]].
      * (* in step with the subject, after a solid character or at the start *)
        destruct prev as [x|].
        -- pose proof (greedy_eol s (Some c)) as G.
           pose proof (match_line_edges_mid (Some x) c s E (solid_not_bol x Hp)) as M.
           destruct (Re.star_greedy isspace (Re.run Eol Re.accept) (Some c) s)
             as [[p rest]|].
           ++ rewrite M. destruct G as [Gl Gr].
              replace (List.length rest <? List.length (c :: s))%nat with true
                by (symmetry; apply Nat.ltb_lt; simpl; lia).
              cbn [app]. apply IH; [lia|].
              destruct Gr as [-> | (c1 & s1 & -> & N1 & B1)].
              ** right. right. left. split; [reflexivity | intros _; exact Hp].
              ** right. right. right. split; [exists x; auto | exists c1, s1; auto].
           ++ apply (Hcopy x eq_refl M); [|exact G].
              destruct (is_nl c); [exact Hp|].
              destruct (is_nl x) eqn:Nx; [apply is_nl_isspace in Nx; congruence | reflexivity].
        -- apply Hbol; [reflexivity | auto].
      * (* in step with the subject, inside white space that stays *)
        destruct (blocked_cons_ws c s E B) as [N Bs].
        destruct (is_nl x) eqn:Nx.
        -- apply Hbol; [exact Nx|]. intros L. unfold blocked in Bs. rewrite L in Bs.
           rewrite andb_false_r in Bs. discriminate.
        -- apply (Hcopy x eq_refl); [|rewrite N; exact Nx | exact Bs].
           rewrite (match_line_edges_mid (Some x) c s E Nx). apply greedy_eol_blocked. exact Bs.
      * simpl in Hs. congruence.
      * (* after white space removed up to a newline *)
        inversion Hs; subst c0 s'.
        destruct (Re.at_bol prev) eqn:Bp.
        -- apply Hbol; [reflexivity|]. intros L. unfold blocked in B. rewrite L in B.
           rewrite andb_false_r in B. discriminate.
        -- apply (Hcopy x eq_refl); [|rewrite N; exact Hx | exact B].
           rewrite (match_line_edges_mid _ c s E Bp). apply greedy_eol_blocked. exact B.
    + (* a solid character is copied *)
      rewrite (match_line_edges_solid prev c s E). cbn [tidy_from]. rewrite E.
      destruct (is_nl c) eqn:N; [apply is_nl_isspace in N; congruence|].
      apply IH; [lia|]. left. split; [reflexivity | exact E].
Qed.

Lemma trim_lines_tidy s : tidy_from None (trim_lines s) = true.
Proof. apply trim_lines_go_tidy; [simpl; lia | left; auto]. Qed.

Lemma tidy_rstrip s : forall o, tidy_from o s = true -> Str.rstrip s = s.
Proof.
  induction s as [|c s IH]; intros o H; [reflexivity|].
  cbn [tidy_from] in H. apply andb_true_iff in H. destruct H as [_ H].
  destruct s as [|d s].
  - simpl in H. apply negb_true_iff in H. simpl. rewrite H. reflexivity.
  - rewrite rstrip_cons; rewrite (IH _ H); [reflexivity | discriminate].
Qed.

Lemma tidy_strip s : tidy_from None s = true -> Str.strip s = s.
Proof.
  intros H. unfold Str.strip. rewrite lstrip_id; [apply (tidy_rstrip s None H)|].
  destruct s as [|c s]; [reflexivity|]. simpl in H |- *.
  destruct (is_nl c) eqn:N; [discriminate|]. destruct (isspace c); [discriminate | reflexivity].
Qed.

Lemma clean_text_tidy x : tidy_from None (_clean_text x) = true.
Proof.
  unfold _clean_text. destruct (negb (Str.truthy x)); [reflexivity|].
  rewrite tidy_strip; apply trim_lines_tidy.
Qed.

(** A newline of a tidy text has a solid character on each side. *)
Lemma tidy_newline a : forall o b,
  tidy_from o (a ++ NL :: b) = true ->
  (exists p, isspace p = false /\
             ((a = [] /\ o = Some p) \/ exists a', a = a' ++ [p]))
  /\ (exists q b', b = q :: b' /\ isspace q = false).
Proof.
  induction a as [|c a IH]; intros o b H.
  - cbn [app tidy_from] in H. change (is_nl NL) with true in H. cbv iota in H.
    apply andb_true_iff in H. destruct H as [Ho Hb]. split.
    + destruct o as [x|]; [|discriminate]. apply negb_true_iff in Ho.
      exists x. auto.
    + destruct b as [|q b']; [discriminate Hb|]. exists q, b'. split; [reflexivity|].
      cbn [tidy_from] in Hb. apply andb_true_iff in Hb. destruct Hb as [Hq _].
      destruct (is_nl q); [discriminate Hq|].
      destruct (isspace q); [discriminate Hq | reflexivity].
  - cbn [app tidy_from] in H. apply andb_true_iff in H. destruct H as [_ H].
    destruct (IH _ _ H) as [(p & Hp & Ha) Hb]. split; [|exact Hb].
    exists p. split; [exact Hp|]. right.
    destruct Ha as [[-> Heq] | (a' & ->)].
    + inversion Heq; subst. exists []. reflexivity.
    + exists (c :: a'). reflexivity.
Qed.

(** X1: in the output of [_clean_text] every newline stands between two
    characters that are not white space; so no line starts or ends with
    white space, no line is blank, and two newlines never come in a
    row. *)
Theorem clean_text_newlines_isolated (x a b : text) :
  _clean_text x = a ++ NL :: b ->
  (exists a' p, a = a' ++ [p] /\ isspace p = false)
  /\ (exists q b', b = q :: b' /\ isspace q = false).
Proof.
  intros H. pose proof (clean_text_tidy x) as T. rewrite H in T.
  destruct (tidy_newline _ _ _ T) as [(p & Hp & Ha) Hb]. split; [|exact Hb].
  destruct Ha as [[_ Ho] | (a' & ->)]; [discriminate|]. exists a', p. auto.
Qed.

Lemma clean_text_newlines_isolated_witness :
  (exists a' p, txt "alpha" = a' ++ [p] /\ isspace p = false)
  /\ (exists q b', txt "beta" = q :: b' /\ isspace q = false).
Proof.
  apply (clean_text_newlines_isolated Fixture.two_paragraphs (txt "alpha") (txt "beta")).
  vm_compute. reflexivity.
Defined.

(** X2: the output of [_clean_text] has no white space at either end:
    stripping it again changes nothing. *)
Theorem clean_text_stripped (x : text) :
  Str.strip (_clean_text x) = _clean_text x
  /\ starts_ws (_clean_text x) = false.
Proof.
  pose proof (clean_text_tidy x) as T. split; [apply tidy_strip; exact T|].
  destruct (_clean_text x) as [|c s]; [reflexivity|]. simpl in T |- *.
  destruct (is_nl c); [discriminate|]. destruct (isspace c); [discriminate | reflexivity].
Qed.

(** ** What the rules can put into the text *)

Lemma within_any r : within (fun _ => True) r.
Proof. induction r; simpl; auto. apply List.Forall_forall. auto. Qed.

Lemma sub_go_nil r : forall fuel prev, Re.sub_go fuel r [] prev [] = [].
Proof.
  destruct fuel as [|fuel]; intros prev; [reflexivity|]. cbn [Re.sub_go].
  destruct (Re.match_at r prev []) as [[p rest]|]; [|reflexivity].
  destruct (List.length rest <? List.length (@nil char))%nat eqn:L; [|reflexivity].
  apply Nat.ltb_lt in L. simpl in L. lia.
Qed.

Lemma sub_no_char r repl c s :
  no_char c repl = true -> no_char c s = true -> no_char c (Re.sub r repl s) = true.
Proof.
  rewrite !no_char_In. intros Hr Hs Hin. apply sub_go_In in Hin. tauto.
Qed.

Lemma apply_rules_no_char c rules : forall s,
  Forall (fun rule => no_char c (snd rule) = true) rules ->
  no_char c s = true -> no_char c (apply_rules rules s) = true.
Proof.
  unfold apply_rules. induction rules as [|rule rules IH]; intros s H Hs; [exact Hs|].
  inversion H; subst. simpl. apply IH; [assumption|]. apply sub_no_char; assumption.
Qed.

Lemma boilerplate_no_char c s :
  no_char c s = true -> no_char c (apply_rules boilerplate_rules s) = true.
Proof.
  apply apply_rules_no_char. unfold boilerplate_rules.
  apply List.Forall_forall. intros rule Hin. apply List.in_map_iff in Hin.
  destruct Hin as (r & <- & _). reflexivity.
Qed.

(** X3: a text with no ampersand and no angle bracket comes out of
    [_clean_text] as a single line: line 240 turns every line break into
    a space and only a paragraph tag can bring one back. *)
Theorem clean_text_plain_single_line (x : text) :
  no_char AMP x = true -> no_char LT x = true ->
  no_char NL (_clean_text x) = true.
Proof.
  intros Ha Hl. unfold _clean_text. destruct (negb (Str.truthy x)); [reflexivity|].
  rewrite (decode_quiet _ Ha).
  set (y := apply_rules boilerplate_rules (collapse_ws x)).
  assert (Hy : no_char NL y = true).
  { apply boilerplate_no_char. apply (spaced_no_nl _ false), collapse_ws_spaced. }
  assert (Hyl : no_char LT y = true).
  { apply boilerplate_no_char. apply collapse_ws_no_char; [discriminate | exact Hl]. }
  rewrite (markup_quiet _ Hyl), (collapse_blank_quiet _ Hy).
  apply (no_char_ws_del NL y); [|exact Hy].
  eapply ws_del_trans; [apply trim_lines_ws_del | apply strip_ws_del].
Qed.

Lemma clean_text_plain_single_line_witness :
  no_char NL (_clean_text Sample.prose) = true.
Proof.
  apply (clean_text_plain_single_line Sample.prose); vm_compute; reflexivity.
Defined.

(** ** White space only *)

Lemma lstrip_all_ws s : List.forallb isspace s = true -> Str.lstrip s = [].
Proof.
  induction s as [|c s IH]; simpl; [reflexivity|]. intros H.
  apply andb_true_iff in H. destruct H as [-> H]. auto.
Qed.

Lemma collapse_ws_blank c s :
  List.forallb isspace (c :: s) = true -> collapse_ws (c :: s) = [SP].
Proof.
  intros H. simpl in H. apply andb_true_iff in H. destruct H as [Hc Hs].
  unfold collapse_ws, Re.sub. cbn [Re.sub_go]. rewrite match_ws_plus, Hc.
  destruct (greedy_ws_accept s c) as (c' & -> & _). rewrite (lstrip_all_ws s Hs).
  cbn [List.length Nat.ltb Nat.leb]. destruct (List.length s); reflexivity.
Qed.

(** X4: a text of white space only, of any kind and length, is cleaned
    to the empty string. *)
Theorem clean_text_blank (x : text) :
  List.forallb isspace x = true -> _clean_text x = [].
Proof.
  intros H. destruct x as [|c x]; [reflexivity|].
  unfold _clean_text. cbn [Str.truthy negb].
  rewrite decode_quiet.
  - rewrite (collapse_ws_blank c x H). vm_compute. reflexivity.
  - apply no_char_In. intros Hin. rewrite List.forallb_forall in H.
    specialize (H AMP Hin). discriminate H.
Qed.

Lemma clean_text_blank_witness : _clean_text Fixture.blank = [].
Proof. apply (clean_text_blank Fixture.blank). vm_compute. reflexivity. Defined.

(** ** Lines 245-270 after line 240 *)

Lemma at_eol_no_nl s : no_char NL s = true -> Re.at_eol s = true -> s = [].
Proof.
  destruct s as [|c s]; [reflexivity|]. simpl. intros H N.
  unfold is_nl in N. rewrite N in H. discriminate.
Qed.

Lemma no_char_app c a b : no_char c (a ++ b) = true -> no_char c a = true /\ no_char c b = true.
Proof. unfold no_char. rewrite List.forallb_app. apply andb_true_iff. Qed.

Lemma run_ends_eol r : ends_eol r = true -> forall k prev s res,
  Re.run r k prev s = Some res ->
  exists w p s', s = w ++ s' /\ Re.at_eol s' = true /\ k p s' = Some res.
Proof.
  induction r as [l|p|p|p| | |a IHa b IHb|a IHa b IHb]; simpl; intros E k prev s res H;
    try discriminate.
  - destruct (Re.at_eol s) eqn:A; [|discriminate]. exists [], prev, s. auto.
  - destruct (run_consumes _ a (within_any a) _ _ _ _ H) as (w1 & p1 & s1 & -> & _ & H1).
    destruct (IHb E _ _ _ _ H1) as (w2 & p2 & s2 & -> & A & K).
    exists (w1 ++ w2), p2, s2. rewrite <- List.app_assoc. auto.
Qed.

(** On a text without newlines a rule that ends with [$] deletes from
    its first match to the end. *)
Lemma match_ends_eol r prev s p rest :
  ends_eol r = true -> no_char NL s = true ->
  Re.match_at r prev s = Some (p, rest) -> rest = [].
Proof.
  intros E Hs M. destruct (run_ends_eol r E _ _ _ _ M) as (w & p' & s' & -> & A & K).
  inversion K; subst. apply at_eol_no_nl; [|exact A]. apply (no_char_app NL w rest Hs).
Qed.

Lemma sub_go_eol_prefix r (E : ends_eol r = true) : forall fuel prev s,
  no_char NL s = true -> exists tail, s = Re.sub_go fuel r [] prev s ++ tail.
Proof.
  induction fuel as [|fuel IH]; intros prev s Hs; [exists []; simpl; rewrite List.app_nil_r; reflexivity|].
  cbn [Re.sub_go].
  assert (Hstep : exists tail,
            s = match s with
                | [] => []
                | c :: s' => c :: Re.sub_go fuel r [] (Some c) s'
                end ++ tail).
  { destruct s as [|c s]; [exists []; reflexivity|].
    simpl in Hs. apply andb_true_iff in Hs. destruct Hs as [_ Hs].
    destruct (IH (Some c) s Hs) as [tail Ht]. exists tail. simpl. f_equal. exact Ht. }
  destruct (Re.match_at r prev s) as [[p rest]|] eqn:M; [|exact Hstep].
  destruct (List.length rest <? List.length s)%nat; [|exact Hstep].
  rewrite (match_ends_eol r prev s p rest E Hs M), sub_go_nil. exists s. reflexivity.
Qed.

Lemma apply_eol_rules_prefix rules : forall s,
  Forall (fun rule => ends_eol (fst rule) = true /\ snd rule = []) rules ->
  no_char NL s = true -> exists tail, s = apply_rules rules s ++ tail.
Proof.
  unfold apply_rules. induction rules as [|[r repl] rules IH]; intros s H Hs.
  - exists []. simpl. rewrite List.app_nil_r. reflexivity.
  - inversion H as [|? ? [E R] H']; subst. simpl in E, R. subst repl. cbn [List.fold_left fst snd].
    destruct (sub_go_eol_prefix r E (S (List.length s)) None s Hs) as [t1 H1].
    fold (Re.sub r [] s) in H1.
    assert (Hs1 : no_char NL (Re.sub r [] s) = true).
    { rewrite H1 in Hs. apply (no_char_app NL _ t1 Hs). }
    destruct (IH _ H' Hs1) as [t2 H2]. exists (t2 ++ t1).
    rewrite List.app_assoc, <- H2. exact H1.
Qed.

Lemma boilerplate_rules_split :
  boilerplate_rules =
  (Lit (txt "Share this:"), []) :: (Lit (txt "Like this:"), []) :: eol_rules.
Proof. reflexivity. Qed.

Lemma eol_rules_end :
  Forall (fun rule => ends_eol (fst rule) = true /\ snd rule = []) eol_rules.
Proof.
  unfold eol_rules, boilerplate_rules, boilerplate_patterns. cbn [List.map List.skipn].
  repeat (constructor; [split; reflexivity|]). constructor.
Qed.

(** The text that lines 245-270 work on: lines 229-244 applied. *)
Lemma labels_removed_no_nl x :
  no_char NL (Re.sub (Lit (txt "Like this:")) []
                (Re.sub (Lit (txt "Share this:")) [] (collapse_ws x))) = true.
Proof.
  do 2 (apply sub_no_char; [reflexivity|]).
  apply (spaced_no_nl _ false), collapse_ws_spaced.
Qed.

Lemma apply_rules_cons rule rules s :
  apply_rules (rule :: rules) s = apply_rules rules (Re.sub (fst rule) (snd rule) s).
Proof. reflexivity. Qed.

(** X5: in [_clean_text] the rules of lines 245-270 can only cut the end
    of the text off.  Line 240 has left no newline, so the [$] of each
    rule is the end of the text: the text after line 270 is the start
    of the text after line 244, up to some point. *)
Theorem boilerplate_rules_only_truncate (x : text) :
  let y := collapse_ws (decode_entities x) in
  exists tail,
    Re.sub (Lit (txt "Like this:")) [] (Re.sub (Lit (txt "Share this:")) [] y)
    = apply_rules boilerplate_rules y ++ tail.
Proof.
  intros y. rewrite boilerplate_rules_split, !apply_rules_cons.
  cbn [fst snd]. apply apply_eol_rules_prefix; [apply eol_rules_end|].
  apply labels_removed_no_nl.
Qed.
(** ** The phrases that do not survive *)

Lemma lit_prefix l : forall k prev s,
  is_prefix l s = true ->
  exists p, Re.lit l k prev s = k p (List.skipn (List.length l) s).
Proof.
  induction l as [|x l IH]; intros k prev s H; [exists prev; reflexivity|].
  destruct s as [|c s]; [discriminate|]. simpl in H.
  apply andb_true_iff in H. destruct H as [H1 H2]. simpl. rewrite H1.
  apply IH. exact H2.
Qed.

Lemma lazy_to_end d (D : takes_line d) : forall s prev,
  no_char NL s = true ->
  exists p, Re.star_lazy d (Re.run Eol Re.accept) prev s = Some (p, []).
Proof.
  induction s as [|c s IH]; intros prev H; [exists prev; reflexivity|].
  simpl in H. apply andb_true_iff in H. destruct H as [H1 H2].
  apply negb_true_iff in H1. cbn [Re.star_lazy].
  change (Re.run Eol Re.accept prev (c :: s))
    with (if is_nl c then Some (prev, c :: s) else None).
  unfold is_nl at 1. rewrite H1, (D c H1). apply IH. exact H2.
Qed.

Lemma skipn_no_char c n s : no_char c s = true -> no_char c (List.skipn n s) = true.
Proof.
  intros H. rewrite <- (List.firstn_skipn n s) in H. apply (no_char_app c _ _ H).
Qed.

Lemma match_to_eol d (D : takes_line d) anchor prev s :
  no_char NL s = true -> is_prefix (txt anchor) s = true ->
  exists p, Re.match_at (to_eol d anchor) prev s = Some (p, []).
Proof.
  intros Hs Hp.
  set (K := fun p t => Re.star_lazy d (Re.run Eol Re.accept) p t).
  change (exists p, Re.lit (txt anchor) K prev s = Some (p, [])).
  destruct (lit_prefix (txt anchor) K prev s Hp) as [p ->].
  unfold K. apply (lazy_to_end d D). apply skipn_no_char. exact Hs.
Qed.

(** A rule [anchor.*?$] leaves no occurrence of its anchor in a text
    without newlines. *)
Lemma sub_to_eol_absent d (D : takes_line d) anchor (Hne : txt anchor <> []) :
  forall fuel prev s,
  (List.length s < fuel)%nat -> no_char NL s = true ->
  occurs (txt anchor) (Re.sub_go fuel (to_eol d anchor) [] prev s) = false.
Proof.
  assert (Hnil : occurs (txt anchor) [] = false).
  { simpl. destruct (txt anchor); [congruence | reflexivity]. }
  induction fuel as [|fuel IH]; intros prev s Hlen Hs; [lia|].
  destruct s as [|c s]; [rewrite sub_go_nil; exact Hnil|].
  cbn [Re.sub_go].
  - simpl in Hlen. destruct (is_prefix (txt anchor) (c :: s)) eqn:P.
    + destruct (match_to_eol d D anchor prev (c :: s) Hs P) as [p ->].
      cbn [List.length Nat.ltb Nat.leb app]. rewrite sub_go_nil. exact Hnil.
    + unfold Re.match_at. rewrite run_starts by exact P.
      pose proof Hs as Hs'. simpl in Hs'. apply andb_true_iff in Hs'. destruct Hs' as [_ Hs'].
      cbn [occurs]. rewrite (IH (Some c) s) by (lia || exact Hs'). rewrite orb_false_r.
      destruct (sub_go_eol_prefix (to_eol d anchor) eq_refl fuel (Some c) s Hs') as [tail Ht].
      destruct (is_prefix (txt anchor) (c :: Re.sub_go fuel (to_eol d anchor) [] (Some c) s))
        eqn:Q; [|reflexivity].
      apply (is_prefix_app _ _ tail) in Q. simpl app in Q. rewrite <- Ht in Q. congruence.
Qed.

Lemma occurs_prefix l s tail : occurs l (s ++ tail) = false -> occurs l s = false.
Proof.
  intros H. destruct (occurs l s) eqn:E; [|reflexivity].
  apply (occurs_app _ _ tail) in E. congruence.
Qed.

Lemma apply_eol_rules_absent d (D : takes_line d) anchor (Hne : txt anchor <> []) rules :
  forall s,
  Forall (fun rule => ends_eol (fst rule) = true /\ snd rule = []) rules ->
  In (to_eol d anchor, []) rules ->
  no_char NL s = true ->
  occurs (txt anchor) (apply_rules rules s) = false.
Proof.
  induction rules as [|[r repl] rules IH]; intros s H Hin Hs; [destruct Hin|].
  inversion H as [|? ? [E R] H']; subst. simpl in E, R. subst repl.
  rewrite apply_rules_cons. cbn [fst snd].
  destruct (sub_go_eol_prefix r E (S (List.length s)) None s Hs) as [t1 H1].
  fold (Re.sub r [] s) in H1.
  assert (Hs1 : no_char NL (Re.sub r [] s) = true).
  { rewrite H1 in Hs. apply (no_char_app NL _ t1 Hs). }
  destruct Hin as [Heq | Hin]; [|apply IH; assumption].
  inversion Heq; subst r.
  destruct (apply_eol_rules_prefix rules _ H' Hs1) as [t2 H2].
  apply (occurs_prefix _ _ t2). rewrite <- H2.
  apply sub_to_eol_absent; [exact D | exact Hne | simpl; lia | exact Hs].
Qed.

Lemma cut_anchors_rules a :
  In a cut_anchors ->
  exists d anchor, a = txt anchor /\ txt anchor <> [] /\ takes_line d /\
                   In (to_eol d anchor, []) eol_rules.
Proof.
  assert (Hdot : takes_line dot) by (intros c H; unfold dot; rewrite H; reflexivity).
  assert (Hany : takes_line any) by (intros c H; reflexivity).
  unfold cut_anchors. cbn [List.map In]. intros H.
  unfold eol_rules, boilerplate_rules, boilerplate_patterns. cbn [List.map List.skipn].
  repeat (destruct H as [<- | H];
          [eexists; eexists; split; [reflexivity|]; split; [discriminate|];
           split; [|cbn [In]; repeat (try (left; reflexivity); right); contradiction];
           first [exact Hdot | exact Hany]|]).
  destruct H.
Qed.

(** X6: for a text with no ampersand and no angle bracket, none of the
    phrases of the rules [phrase.*?$] with a single phrase is left in
    the output of [_clean_text]: the text is cut at its first
    occurrence. *)
Theorem clean_text_drops_cut_anchors (x a : text) :
  no_char AMP x = true -> no_char LT x = true ->
  In a cut_anchors ->
  occurs a (_clean_text x) = false.
Proof.
  intros Ha Hl Hin.
  destruct (cut_anchors_rules a Hin) as (d & anchor & -> & Hne & D & Hrule).
  unfold _clean_text. destruct (negb (Str.truthy x)).
  { simpl. destruct (txt anchor); [congruence | reflexivity]. }
  rewrite (decode_quiet _ Ha).
  set (t := apply_rules boilerplate_rules (collapse_ws x)).
  assert (Ht : no_char NL t = true).
  { apply boilerplate_no_char. apply (spaced_no_nl _ false), collapse_ws_spaced. }
  assert (Htl : no_char LT t = true).
  { apply boilerplate_no_char. apply collapse_ws_no_char; [discriminate | exact Hl]. }
  rewrite (markup_quiet _ Htl), (collapse_blank_quiet _ Ht), (trim_lines_no_nl _ Ht).
  do 2 apply occurs_strip. unfold t.
  rewrite boilerplate_rules_split, !apply_rules_cons. cbn [fst snd].
  apply (apply_eol_rules_absent d D anchor Hne);
    [apply eol_rules_end | exact Hrule | apply labels_removed_no_nl].
Qed.

Lemma clean_text_drops_cut_anchors_witness :
  occurs (txt "Archivos") (_clean_text Fixture.with_footer) = false.
Proof.
  apply (clean_text_drops_cut_anchors Fixture.with_footer (txt "Archivos"));
    [vm_compute; reflexivity | vm_compute; reflexivity|].
  unfold cut_anchors. cbn [List.map In]. do 6 right. left. reflexivity.
Defined.

(** ** The text of the decomposer *)

Lemma lines_from_head arts : forall start,
  lines_from start arts = [] \/
  exists i t rest, lines_from start arts = marker i t :: rest.
Proof.
  induction arts as [|a arts IH]; intros start; [left; reflexivity|].
  rewrite lines_from_cons. pose proof (article_lines_shape start a) as S.
  destruct (find a "h2" "entry-title") as [e|].
  - destruct S as (_ & mid & -> & _). right.
    exists start, (Str.strip (get_text e)), ((mid ++ [separator]) ++ lines_from (S start) arts).
    reflexivity.
  - destruct S as [-> _]. apply IH.
Qed.

Lemma lines_from_titled arts : forall start a e,
  In a arts -> find a "h2" "entry-title" = Some e -> lines_from start arts <> [].
Proof.
  induction arts as [|b arts IH]; intros start a e Hin He; [destruct Hin|].
  rewrite lines_from_cons. destruct Hin as [-> | Hin].
  - pose proof (article_lines_shape start a) as S. rewrite He in S.
    destruct S as (_ & mid & -> & _). discriminate.
  - intros H. apply List.app_eq_nil in H. destruct H as [_ H].
    exact (IH _ _ _ Hin He H).
Qed.

Lemma join_marker i t rest :
  exists tl, Str.join [NL] (marker i t :: rest) = NL :: article_word ++ SP :: tl.
Proof.
  set (line := Str.of_nat i ++ txt ": " ++ t ++ txt " ===" ++ [NL]).
  destruct rest as [|p rest].
  - exists line. reflexivity.
  - exists (line ++ [NL] ++ Str.join [NL] (p :: rest)). reflexivity.
Qed.

(** The text of the decomposer is empty or opens with a record marker. *)
Lemma archive_text_cases soup :
  ((forall a, In a (find_all_article soup) -> find a "h2" "entry-title" = None) /\
   _extract_articles_from_archive soup = [])
  \/ ((exists a e, In a (find_all_article soup) /\ find a "h2" "entry-title" = Some e) /\
      exists tl, _extract_articles_from_archive soup = NL :: article_word ++ SP :: tl).
Proof.
  unfold _extract_articles_from_archive. rewrite articles_text_unfold.
  destruct (lines_from_head (find_all_article soup) 1) as [H | (i & t & rest & H)].
  - left. split; [|rewrite H; reflexivity].
    intros a Hin. destruct (find a "h2" "entry-title") as [e|] eqn:He; [|reflexivity].
    destruct (lines_from_titled _ 1%nat a e Hin He H).
  - right. split; [|rewrite H; apply join_marker].
    destruct (List.Exists_dec (fun a => find a "h2" "entry-title" <> None)
                (find_all_article soup)) as [Ex | Nex].
    + intros a. destruct (find a "h2" "entry-title"); [left; discriminate | right; congruence].
    + apply List.Exists_exists in Ex. destruct Ex as (a & Hin & Hne).
      destruct (find a "h2" "entry-title") as [e|] eqn:He; [|congruence]. exists a, e. auto.
    + exfalso. rewrite lines_from_all_skipped in H; [discriminate|].
      intros a Hin. destruct (find a "h2" "entry-title") as [e|] eqn:He; [|reflexivity].
      exfalso. apply Nex. apply List.Exists_exists. exists a. split; [exact Hin|]. congruence.
Qed.

(** X7: the text that [_extract_articles_from_archive] returns is empty
    exactly when no container has a title element; otherwise it opens
    with a newline and the marker of the first record. *)
Theorem archive_text_empty_iff (soup : Soup) :
  (_extract_articles_from_archive soup = [] <->
   forall a, In a (find_all_article soup) -> find a "h2" "entry-title" = None)
  /\ (_extract_articles_from_archive soup = []
      \/ exists tl, _extract_articles_from_archive soup = NL :: article_word ++ SP :: tl).
Proof.
  destruct (archive_text_cases soup) as [[Hall He] | [(a & e & Hin & Ht) [tl Htl]]].
  - split; [split; auto | left; exact He].
  - split; [|right; exists tl; exact Htl]. rewrite Htl. split; [discriminate|].
    intros H. rewrite (H a Hin) in Ht. discriminate.
Qed.

(** ** Content and word count of the pipeline *)

Lemma content_of_output soup : content_of soup = _extract_articles_from_archive soup.
Proof.
  unfold content_of.
  destruct (archive_text_cases soup) as [[_ ->] | [_ [tl ->]]]; [reflexivity|].
  assert (E : NL :: article_word ++ SP :: tl
              = NL :: 61 :: (List.tl article_word ++ SP :: tl)) by reflexivity.
  rewrite E at 1. unfold Str.strip.
  change (Str.lstrip (NL :: 61 :: (List.tl article_word ++ SP :: tl)))
    with (61 :: (List.tl article_word ++ SP :: tl)).
  rewrite rstrip_cons_solid by reflexivity. reflexivity.
Qed.

Lemma extract_fetch (w : World) (year month : Z) :
  extract_from_unam_global w year month =
  match fetch_soup w (base_url year month) with
  | inl e => error_result w (base_url year month) e
  | inr soup => content_result w (content_of soup)
  end.
Proof.
  unfold extract_from_unam_global, try_block, fetch_soup, bind.
  destruct (session_get w (base_url year month)) as [e|response]; [reflexivity|].
  destruct (raise_for_status w response) as [e|u]; [reflexivity|].
  destruct (BeautifulSoup w (response_content w response)); reflexivity.
Qed.

(** X8: when fetch and parse succeed, the content of the result is
    exactly the text of the decomposer: the test of line 318 never
    discards anything, because that text is empty or opens with a
    marker. *)
Theorem pipeline_content_is_archive_text (w : World) (year month : Z) (soup : Soup) :
  fetch_soup w (base_url year month) = inr soup ->
  extract_from_unam_global w year month !! "content"
  = Some (PStr (_extract_articles_from_archive soup)).
Proof.
  intros H. rewrite extract_fetch, H, <- content_of_output.
  apply content_result_variant.
Qed.

Lemma pipeline_content_is_archive_text_witness :
  extract_from_unam_global (Sample.serving Sample.three_middle_untitled) 2020 1 !! "content"
  = Some (PStr (_extract_articles_from_archive Sample.three_middle_untitled)).
Proof.
  apply (pipeline_content_is_archive_text
           (Sample.serving Sample.three_middle_untitled) 2020 1
           Sample.three_middle_untitled).
  reflexivity.
Defined.

Lemma split_go_nonempty s : forall cur,
  cur <> None \/ (exists c, In c s /\ isspace c = false) ->
  Str.split_go cur s <> [].
Proof.
  induction s as [|c s IH]; intros cur H; cbn [Str.split_go].
  - destruct cur; [discriminate|]. destruct H as [H | (c & [] & _)]. congruence.
  - destruct (isspace c) eqn:E.
    + destruct cur; [discriminate|]. apply IH. right.
      destruct H as [H | (d & [<- | Hin] & Hd)]; [congruence | congruence | eauto].
    + apply IH. left. discriminate.
Qed.

Lemma split_all_ws s : List.forallb isspace s = true -> Str.split s = [].
Proof.
  unfold Str.split. induction s as [|c s IH]; simpl; [reflexivity|].
  intros H. apply andb_true_iff in H. destruct H as [-> H]. auto.
Qed.

Lemma words_zero_iff (soup : Soup) :
  words_of soup = 0%Z <->
  forall a, In a (find_all_article soup) -> find a "h2" "entry-title" = None.
Proof.
  unfold words_of. rewrite content_of_output.
  destruct (archive_text_cases soup) as [[Hall ->] | [(a & e & Hin & Ht) [tl ->]]].
  - split; auto.
  - split.
    + intros H. exfalso.
      assert (Hs : Str.split (NL :: article_word ++ SP :: tl) <> []).
      { apply split_go_nonempty. right. exists 61. split; [right; left; reflexivity | reflexivity]. }
      destruct (Str.split (NL :: article_word ++ SP :: tl)); [congruence | discriminate H].
    + intros H. rewrite (H a Hin) in Ht. discriminate.
Qed.

(** X9: when fetch and parse succeed, the word count of the result is 0
    exactly when no container of the document has a title element, that
    is when no record is emitted. *)
Theorem word_count_zero_iff (w : World) (year month : Z) (soup : Soup) :
  fetch_soup w (base_url year month) = inr soup ->
  (extract_from_unam_global w year month !! "word_count" = Some (PInt 0) <->
   forall a, In a (find_all_article soup) -> find a "h2" "entry-title" = None).
Proof.
  intros H. rewrite extract_fetch, H, <- words_zero_iff.
  destruct (content_result_variant w (content_of soup)) as (_ & -> & _).
  fold (words_of soup). split; [intros E; inversion E; reflexivity | intros ->; reflexivity].
Qed.

Lemma word_count_zero_iff_witness :
  extract_from_unam_global (Sample.serving Sample.only_untitled) 2020 1 !! "word_count"
  = Some (PInt 0) <->
  forall a, In a (find_all_article Sample.only_untitled) ->
            find a "h2" "entry-title" = None.
Proof.
  apply (word_count_zero_iff (Sample.serving Sample.only_untitled) 2020 1
           Sample.only_untitled).
  reflexivity.
Defined.

(** ** The title resolver *)

Lemma title_loop_value soup selectors t :
  title_loop soup selectors = Some t -> t <> [] /\ Str.strip t = t.
Proof.
  induction selectors as [|sel rest IH]; simpl; [discriminate|].
  destruct (select_one soup sel) as [e|]; [|exact IH].
  destruct (Str.truthy (Str.strip (get_text e))) eqn:T; [|exact IH].
  intros H. inversion H; subst t. split; [|apply strip_idem].
  destruct (Str.strip (get_text e)); [discriminate | discriminate].
Qed.

(** X10: [_extract_title] never returns the empty string, and what it
    returns has no white space at either end. *)
Theorem extract_title_never_blank (soup : Soup) :
  _extract_title soup <> [] /\ Str.strip (_extract_title soup) = _extract_title soup.
Proof.
  unfold _extract_title. destruct (title_loop soup title_selectors) as [t|] eqn:H.
  - apply (title_loop_value soup title_selectors t H).
  - split; [discriminate | vm_compute; reflexivity].
Qed.

(** ** File names and addresses *)

Lemma of_uint_inj d : forall d', Str.of_uint d = Str.of_uint d' -> d = d'.
Proof.
  induction d; destruct d'; simpl; intros H; try discriminate; try reflexivity;
    inversion H; f_equal; auto.
Qed.

Lemma of_uint_chars d c : In c (Str.of_uint d) -> 48 <= c <= 57.
Proof.
  induction d; simpl; intros H; try (destruct H as [<- | H]; [lia | auto]).
  destruct H.
Qed.

Lemma of_Z_chars z c : In c (of_Z z) -> c = 45 \/ 48 <= c <= 57.
Proof.
  unfold of_Z. intros H. apply in_app_iff in H. destruct H as [H | H].
  - destruct (z <? 0)%Z; [destruct H as [<- | []]; auto | destruct H].
  - right. eapply of_uint_chars; eauto.
Qed.

Lemma abs_N_inj_neg z z' : (z < 0)%Z -> (z' < 0)%Z -> Z.abs_N z = Z.abs_N z' -> z = z'.
Proof.
  intros H H' E. apply (f_equal Z.of_N) in E. rewrite !N2Z.inj_abs_N in E. lia.
Qed.

Lemma abs_N_inj_pos z z' : (0 <= z)%Z -> (0 <= z')%Z -> Z.abs_N z = Z.abs_N z' -> z = z'.
Proof.
  intros H H' E. apply (f_equal Z.of_N) in E. rewrite !N2Z.inj_abs_N in E. lia.
Qed.

Lemma of_Z_inj z z' : of_Z z = of_Z z' -> z = z'.
Proof.
  unfold of_Z. destruct (z <? 0)%Z eqn:S; destruct (z' <? 0)%Z eqn:S'; cbn [app]; intros H.
  - inversion H as [H1]. apply of_uint_inj, DecimalN.Unsigned.to_uint_inj in H1.
    apply abs_N_inj_neg; [apply Z.ltb_lt; exact S | apply Z.ltb_lt; exact S' | exact H1].
  - exfalso. assert (Hin : In 45 (Str.of_uint (N.to_uint (Z.abs_N z')))).
    { rewrite <- H. left. reflexivity. }
    apply of_uint_chars in Hin. lia.
  - exfalso. assert (Hin : In 45 (Str.of_uint (N.to_uint (Z.abs_N z)))).
    { rewrite H. left. reflexivity. }
    apply of_uint_chars in Hin. lia.
  - apply of_uint_inj, DecimalN.Unsigned.to_uint_inj in H.
    apply abs_N_inj_pos; [apply Z.ltb_ge; exact S | apply Z.ltb_ge; exact S' | exact H].
Qed.

Lemma split_at_sep (sep : char) a : forall a' b b',
  ~ In sep a -> ~ In sep a' ->
  a ++ sep :: b = a' ++ sep :: b' -> a = a' /\ b = b'.
Proof.
  induction a as [|x a IH]; intros a' b b' Ha Ha' H; destruct a' as [|x' a']; simpl in H.
  - inversion H. auto.
  - inversion H; subst. exfalso. apply Ha'. left. reflexivity.
  - inversion H; subst. exfalso. apply Ha. left. reflexivity.
  - inversion H; subst. destruct (IH a' b b') as [-> ->]; auto.
    + intros Hin. apply Ha. right. exact Hin.
    + intros Hin. apply Ha'. right. exact Hin.
Qed.

Lemma txt_filename_eq year month year' month' :
  txt_filename year month = txt_filename year' month' ->
  year = year' /\ month = month'.
Proof.
  unfold txt_filename. intros H. apply List.app_inv_head in H.
  change (txt "_" ++ ?r) with (95 :: r) in H.
  apply split_at_sep in H.
  - destruct H as [Hm Hy]. apply List.app_inv_tail in Hy.
    split; apply of_Z_inj; assumption.
  - intros Hin. apply of_Z_chars in Hin. lia.
  - intros Hin. apply of_Z_chars in Hin. lia.
Qed.

(** X11: two different periods are never saved to the same file. *)
Theorem txt_filename_distinct (year month year' month' : Z) :
  (year, month) <> (year', month') ->
  txt_filename year month <> txt_filename year' month'.
Proof.
  intros Hne H. apply txt_filename_eq in H. destruct H as [-> ->]. congruence.
Qed.

Lemma txt_filename_distinct_witness :
  txt_filename 2020 1 <> txt_filename 2021 1.
Proof. apply (txt_filename_distinct 2020 1 2021 1). discriminate. Defined.

(** ** Saving a result *)

Lemma encodable_app s t : encodable (s ++ t) = encodable s && encodable t.
Proof. unfold encodable. apply List.forallb_app. Qed.

(** The line written for a failure can be encoded exactly when the
    description of the failure can. *)
Lemma encodable_error_line msg :
  encodable (txt "Error: " ++ msg ++ [NL]) = encodable msg.
Proof.
  rewrite !encodable_app.
  change (encodable (txt "Error: ")) with true.
  change (encodable [NL]) with true.
  rewrite andb_true_r. reflexivity.
Qed.

Lemma save_content (w : World) io fs content year month :
  save_to_txt io fs (content_result w content) year month =
  match io (txt_filename year month) with
  | OpenFails => (fs, inl OSError)
  | Opens =>
      if encodable content
      then (<[txt_filename year month := content]> fs,
            inr (saved_message (txt_filename year month) (count content article_word)))
      else (<[txt_filename year month := []]> fs, inl UnicodeEncodeError)
  | WriteFails remains =>
      if encodable content
      then (<[txt_filename year month := remains]> fs, inl OSError)
      else (<[txt_filename year month := []]> fs, inl UnicodeEncodeError)
  end.
Proof.
  unfold save_to_txt.
  destruct (content_result_variant w content) as (Hc & _ & He & _).
  rewrite He, Hc. cbn [default from_option id]. unfold write_file.
  destruct (io (txt_filename year month)); destruct (encodable content); reflexivity.
Qed.

(** A text with a lone surrogate: the file is emptied and left empty,
    and no success is reported. *)
Example save_lone_surrogate (w : World) (fs : gmap (list N) text) :
  save_to_txt writable fs (content_result w [120; 55296; 121]) 2020 1 =
  (<[txt_filename 2020 1 := []]> fs, inl UnicodeEncodeError).
Proof. rewrite save_content. reflexivity. Qed.

(** A write that fails part of the way: the file holds what the failure
    left, and no success is reported. *)
Example save_failed_write (w : World) (fs : gmap (list N) text) :
  save_to_txt (Fixture.failing_disk (txt "par")) fs
    (content_result w (txt "partial")) 2020 1 =
  (<[txt_filename 2020 1 := txt "par"]> fs, inl OSError).
Proof. rewrite save_content. reflexivity. Qed.

(** X12: [save_to_txt] given the result of a period whose fetch or
    parse failed, on a file that can be written, raises in every case.
    When the description of the failure can be encoded it writes the
    line [Error: ] with that description, and then raises at line 354,
    which reads [article_count], a name that only the other branch
    assigns.  When the description holds a lone surrogate the write
    itself raises and the file is left empty. *)
Theorem save_error_result_raises (w : World) (io : list N -> Io)
    (fs : gmap (list N) text) (year month : Z) (e : Exn w) :
  fetch_soup w (base_url year month) = inl e ->
  io (txt_filename year month) = Opens ->
  save_to_txt io fs (extract_from_unam_global w year month) year month =
  if encodable (str_exn w e)
  then (<[txt_filename year month := txt "Error: " ++ str_exn w e ++ [NL]]> fs,
        inl (UnboundLocalError "article_count"))
  else (<[txt_filename year month := []]> fs, inl UnicodeEncodeError).
Proof.
  intros H Hio. rewrite extract_fetch, H. unfold save_to_txt. rewrite Hio.
  destruct (error_result_variant w (base_url year month) e) as (He & _).
  rewrite He. unfold write_file. cbn [pystr]. rewrite encodable_error_line.
  destruct (encodable (str_exn w e)); reflexivity.
Qed.

Lemma save_error_result_raises_witness :
  save_to_txt writable ∅
    (extract_from_unam_global (Sample.unreachable (txt "timed out")) 2020 1) 2020 1 =
  (<[txt_filename 2020 1 := txt "Error: timed out" ++ [NL]]> ∅,
   inl (UnboundLocalError "article_count")).
Proof.
  apply (save_error_result_raises (Sample.unreachable (txt "timed out")) writable ∅
           2020 1 (txt "timed out")); reflexivity.
Defined.

(** ** The loops of [main] *)

Lemma main_step_spec w io st p :
  disk (main_step w io st p) = disk_after w io p (disk st)
  /\ successful_extractions (main_step w io st p)
     = (if saved_ok w io p then S (successful_extractions st)
        else successful_extractions st)
  /\ failed_extractions (main_step w io st p)
     = (if saved_ok w io p then failed_extractions st
        else S (failed_extractions st))
  /\ total_articles (main_step w io st p)
     = (total_articles st + period_words w io p)%Z.
Proof.
  unfold main_step, disk_after, saved_ok, period_words, saved_ok.
  rewrite extract_fetch.
  destruct (fetch_soup w (base_url (fst p) (snd p))) as [e|soup] eqn:F.
  - destruct (error_result_variant w (base_url (fst p) (snd p)) e) as (He & _).
    rewrite He. cbn. repeat split; lia.
  - rewrite save_content.
    destruct (content_result_variant w (content_of soup)) as (_ & Hw & He & _).
    rewrite He, Hw. cbn [default from_option id].
    destruct (io (txt_filename (fst p) (snd p)));
      destruct (encodable (content_of soup)); cbn; repeat split; lia.
Qed.

Lemma run_periods_cons w io p ps st :
  List.fold_left (main_step w io) (p :: ps) st
  = List.fold_left (main_step w io) ps (main_step w io st p).
Proof. reflexivity. Qed.

Lemma run_periods_counts w io ps : forall st,
  (successful_extractions (List.fold_left (main_step w io) ps st)
   + failed_extractions (List.fold_left (main_step w io) ps st)
   = successful_extractions st + failed_extractions st + List.length ps)%nat.
Proof.
  induction ps as [|p ps IH]; intros st; [simpl; lia|].
  rewrite run_periods_cons, IH. cbn [List.length].
  destruct (main_step_spec w io st p) as (_ & -> & -> & _).
  destruct (saved_ok w io p); lia.
Qed.

Lemma run_periods_tally w io ps : forall st,
  successful_extractions (List.fold_left (main_step w io) ps st)
  = (successful_extractions st + List.length (List.filter (saved_ok w io) ps))%nat
  /\ failed_extractions (List.fold_left (main_step w io) ps st)
     = (failed_extractions st
        + List.length (List.filter (fun p => negb (saved_ok w io p)) ps))%nat
  /\ total_articles (List.fold_left (main_step w io) ps st)
     = (total_articles st + List.fold_right Z.add 0 (List.map (period_words w io) ps))%Z.
Proof.
  induction ps as [|p ps IH]; intros st; [simpl; repeat split; lia|].
  rewrite run_periods_cons. destruct (IH (main_step w io st p)) as (-> & -> & ->).
  destruct (main_step_spec w io st p) as (_ & -> & -> & ->).
  cbn [List.filter List.map List.fold_right].
  destruct (saved_ok w io p); cbn [negb List.length]; repeat split; lia.
Qed.

Lemma saved_ok_closed w p : saved_ok w closed p = false.
Proof. unfold saved_ok, closed. destruct (fetch_soup w _); reflexivity. Qed.

Lemma period_words_closed w p : period_words w closed p = 0%Z.
Proof.
  unfold period_words. rewrite saved_ok_closed. destruct (fetch_soup w _); reflexivity.
Qed.

Lemma run_periods_closed w ps : forall st,
  successful_extractions (List.fold_left (main_step w closed) ps st)
  = successful_extractions st
  /\ disk (List.fold_left (main_step w closed) ps st) = disk st
  /\ total_articles (List.fold_left (main_step w closed) ps st) = total_articles st.
Proof.
  induction ps as [|p ps IH]; intros st; [auto|].
  rewrite run_periods_cons.
  destruct (IH (main_step w closed st p)) as (-> & -> & ->).
  destruct (main_step_spec w closed st p) as (-> & -> & _ & ->).
  rewrite saved_ok_closed, period_words_closed. unfold disk_after, closed.
  destruct (fetch_soup w _); repeat split; lia.
Qed.

(** X13: [main] counts every one of its 48 periods once, as a success or
    as a failure, whatever the fetch and the parse of each period do,
    and whatever the file system does with each file: an open that
    fails, a write or a close that fails and leaves anything in the
    file, or a text that cannot be encoded.  When no file can be
    opened, no period counts as a success, no word is counted and the
    disk is left as it was. *)
Theorem main_counts_every_period (w : World) (io : list N -> Io)
    (fs : gmap (list N) text) :
  (successful_extractions (main w io fs) + failed_extractions (main w io fs) = 48)%nat
  /\ successful_extractions (main w closed fs) = 0%nat
  /\ total_articles (main w closed fs) = 0%Z
  /\ disk (main w closed fs) = fs.
Proof.
  split.
  - unfold main. rewrite run_periods_counts. reflexivity.
  - unfold main.
    match goal with |- context [List.fold_left _ periods ?st] =>
      destruct (run_periods_closed w periods st) as (-> & -> & ->) end.
    auto.
Qed.

(** X14: the successes that [main] counts are the periods whose text is
    saved: the fetch and the parse succeed, the file opens, the text of
    the decomposer can be encoded and the write goes through.  Every
    other period is counted as a failure, and the total is the sum of
    the word counts of the saved periods.  A fetched page whose text
    holds a lone surrogate is a failure and adds no words. *)
Theorem main_tally (w : World) (io : list N -> Io) (fs : gmap (list N) text) :
  successful_extractions (main w io fs)
  = List.length (List.filter (saved_ok w io) periods)
  /\ failed_extractions (main w io fs)
     = List.length (List.filter (fun p => negb (saved_ok w io p)) periods)
  /\ total_articles (main w io fs)
     = List.fold_right Z.add 0%Z (List.map (period_words w io) periods)
  /\ (forall p soup,
        fetch_soup w (base_url (fst p) (snd p)) = inr soup ->
        saved_ok w io p =
        match io (txt_filename (fst p) (snd p)) with
        | Opens => encodable (_extract_articles_from_archive soup)
        | _ => false
        end
        /\ period_words w io p =
           if saved_ok w io p
           then Z.of_nat (List.length (Str.split (_extract_articles_from_archive soup)))
           else 0%Z)
  /\ (forall p e,
        fetch_soup w (base_url (fst p) (snd p)) = inl e ->
        saved_ok w io p = false /\ period_words w io p = 0%Z).
Proof.
  unfold main.
  match goal with |- context [List.fold_left _ periods ?st] =>
    destruct (run_periods_tally w io periods st) as (-> & -> & ->) end.
  split; [reflexivity|]. split; [reflexivity|]. split; [reflexivity|]. split.
  - intros p soup F. unfold period_words, saved_ok. rewrite F.
    unfold words_of. rewrite content_of_output. split; reflexivity.
  - intros p e F. unfold period_words, saved_ok. rewrite F. split; reflexivity.
Qed.

Lemma main_tally_witness :
  successful_extractions (main (Sample.serving Fixture.surrogate_page) writable ∅) = 0%nat
  /\ failed_extractions (main (Sample.serving Fixture.surrogate_page) writable ∅) = 48%nat
  /\ total_articles (main (Sample.serving Fixture.surrogate_page) writable ∅) = 0%Z.
Proof.
  destruct (main_tally (Sample.serving Fixture.surrogate_page) writable ∅)
    as (-> & -> & -> & _).
  vm_compute. auto.
Defined.

Lemma disk_after_file w io p fs path :
  disk_after w io p fs !! path =
  if decide (path = txt_filename (fst p) (snd p))
  then file_after w io p (fs !! path)
  else fs !! path.
Proof.
  unfold disk_after, file_after.
  destruct (fetch_soup w (base_url (fst p) (snd p))) as [e|soup].
  - destruct (decide _); reflexivity.
  - destruct (io (txt_filename (fst p) (snd p)));
      destruct (decide (path = txt_filename (fst p) (snd p))) as [-> | Hne];
      try reflexivity;
      try apply lookup_insert_eq;
      apply lookup_insert_ne; congruence.
Qed.

Lemma main_step_file w io st p path :
  disk (main_step w io st p) !! path =
  if decide (path = txt_filename (fst p) (snd p))
  then file_after w io p (disk st !! path)
  else disk st !! path.
Proof.
  destruct (main_step_spec w io st p) as (-> & _). apply disk_after_file.
Qed.

Lemma run_periods_other w io ps : forall st path,
  (forall p, In p ps -> path <> txt_filename (fst p) (snd p)) ->
  disk (List.fold_left (main_step w io) ps st) !! path = disk st !! path.
Proof.
  induction ps as [|p ps IH]; intros st path H; [reflexivity|].
  rewrite run_periods_cons, IH by (intros q Hq; apply H; right; exact Hq).
  rewrite main_step_file. destruct (decide _) as [E|_]; [|reflexivity].
  destruct (H p (or_introl eq_refl) E).
Qed.

Lemma file_after_idem w io p old :
  file_after w io p (file_after w io p old) = file_after w io p old.
Proof.
  unfold file_after. destruct (fetch_soup w _); [reflexivity|].
  destruct (io _); reflexivity.
Qed.

Lemma filename_of_period_inj (p q : Z * Z) :
  txt_filename (fst p) (snd p) = txt_filename (fst q) (snd q) -> p = q.
Proof.
  intros H. apply txt_filename_eq in H. destruct p, q. simpl in H.
  destruct H as [-> ->]. reflexivity.
Qed.

Lemma run_periods_file w io ps : forall st p,
  In p ps ->
  disk (List.fold_left (main_step w io) ps st) !! txt_filename (fst p) (snd p)
  = file_after w io p (disk st !! txt_filename (fst p) (snd p)).
Proof.
  induction ps as [|q ps IH]; intros st p Hin; [destruct Hin|].
  rewrite run_periods_cons.
  assert (Hstep : file_after w io p
                    (disk (main_step w io st q) !! txt_filename (fst p) (snd p))
                  = file_after w io p (disk st !! txt_filename (fst p) (snd p))).
  { rewrite main_step_file. destruct (decide _) as [E|_]; [|reflexivity].
    apply filename_of_period_inj in E. subst q. apply file_after_idem. }
  destruct (List.in_dec (fun a b : Z * Z => decide (a = b)) p ps) as [Hp | Hp].
  - rewrite (IH _ p Hp). exact Hstep.
  - destruct Hin as [-> | Hin]; [|contradiction].
    rewrite run_periods_other.
    + rewrite main_step_file. destruct (decide _); [reflexivity | congruence].
    + intros q Hq E. apply filename_of_period_inj in E. subst q. contradiction.
Qed.

(** X15: when [main] ends, the file of each of its periods is as it was
    before if the fetch or the parse of that period failed or the file
    could not be opened.  Otherwise it has been emptied, and it holds
    the text of the decomposer if that text can be encoded and the write
    goes through, whatever a failed write left if it does not, and
    nothing if the text cannot be encoded.  No error line is ever
    written.  Every other path is left as it was. *)
Theorem main_files (w : World) (io : list N -> Io) (fs : gmap (list N) text)
    (year month : Z) :
  In (year, month) periods ->
  disk (main w io fs) !! txt_filename year month
  = match fetch_soup w (base_url year month) with
    | inr soup =>
        match io (txt_filename year month) with
        | OpenFails => fs !! txt_filename year month
        | Opens =>
            Some (if encodable (_extract_articles_from_archive soup)
                  then _extract_articles_from_archive soup else [])
        | WriteFails remains =>
            Some (if encodable (_extract_articles_from_archive soup)
                  then remains else [])
        end
    | inl _ => fs !! txt_filename year month
    end
  /\ forall path,
       (forall y m, In (y, m) periods -> path <> txt_filename y m) ->
       disk (main w io fs) !! path = fs !! path.
Proof.
  intros Hin. unfold main. split.
  - rewrite (run_periods_file w io periods _ (year, month) Hin). unfold file_after.
    cbn [fst snd disk]. destruct (fetch_soup w (base_url year month)); [reflexivity|].
    rewrite content_of_output. reflexivity.
  - intros path H. rewrite run_periods_other; [reflexivity|].
    intros [y m] Hp. apply H. exact Hp.
Qed.

Lemma main_files_witness :
  disk (main (Fixture.january_only Sample.three_middle_untitled) writable ∅)
    !! txt_filename 2020 1
  = Some (_extract_articles_from_archive Sample.three_middle_untitled)
  /\ forall path,
       (forall y m, In (y, m) periods -> path <> txt_filename y m) ->
       disk (main (Fixture.january_only Sample.three_middle_untitled) writable ∅) !! path
       = (∅ : gmap (list N) text) !! path.
Proof.
  apply (main_files (Fixture.january_only Sample.three_middle_untitled) writable ∅ 2020 1).
  left. reflexivity.
Defined.

(** ** Addresses *)

Lemma repeat_zero_digits p d :
  List.repeat 48 p ++ Str.of_uint d = Str.of_uint (Nat.iter p Decimal.D0 d).
Proof. induction p as [|p IH]; simpl; [reflexivity|]. f_equal. exact IH. Qed.

Lemma unorm_iter_zero p d :
  Decimal.unorm (Nat.iter p Decimal.D0 d) = Decimal.unorm d.
Proof. induction p as [|p IH]; simpl; [reflexivity | exact IH]. Qed.

Lemma to_uint_unorm n : Decimal.unorm (N.to_uint n) = N.to_uint n.
Proof.
  rewrite <- DecimalN.Unsigned.to_of, DecimalN.Unsigned.of_to. reflexivity.
Qed.

Lemma padded_digits_inj p p' n n' :
  List.repeat 48 p ++ Str.of_uint (N.to_uint n)
  = List.repeat 48 p' ++ Str.of_uint (N.to_uint n') -> n = n'.
Proof.
  rewrite !repeat_zero_digits. intros H. apply of_uint_inj in H.
  apply (f_equal Decimal.unorm) in H. rewrite !unorm_iter_zero, !to_uint_unorm in H.
  apply DecimalN.Unsigned.to_uint_inj. exact H.
Qed.

Lemma padded_digits_chars p n c :
  In c (List.repeat 48 p ++ Str.of_uint (N.to_uint n)) -> 48 <= c <= 57.
Proof.
  intros H. apply in_app_iff in H. destruct H as [H | H].
  - apply List.repeat_spec in H. lia.
  - eapply of_uint_chars; eauto.
Qed.

Lemma zfill_chars w z c : In c (Str.zfill w z) -> c = 45 \/ 48 <= c <= 57.
Proof.
  unfold Str.zfill. intros H. apply in_app_iff in H. destruct H as [H | H].
  - destruct (z <? 0)%Z; [destruct H as [<- | []]; auto | destruct H].
  - right. eapply padded_digits_chars; eauto.
Qed.

Lemma zfill_inj w z z' : Str.zfill w z = Str.zfill w z' -> z = z'.
Proof.
  unfold Str.zfill.
  destruct (z <? 0)%Z eqn:S; destruct (z' <? 0)%Z eqn:S'; cbn [app]; intros H.
  - inversion H as [H1]. apply padded_digits_inj in H1.
    apply abs_N_inj_neg; [apply Z.ltb_lt; exact S | apply Z.ltb_lt; exact S' | exact H1].
  - exfalso.
    match type of H with _ = ?r => assert (Hin : In 45 r) by (rewrite <- H; left; reflexivity) end.
    apply padded_digits_chars in Hin. lia.
  - exfalso.
    match type of H with ?l = _ => assert (Hin : In 45 l) by (rewrite H; left; reflexivity) end.
    apply padded_digits_chars in Hin. lia.
  - apply padded_digits_inj in H.
    apply abs_N_inj_pos; [apply Z.ltb_ge; exact S | apply Z.ltb_ge; exact S' | exact H].
Qed.

Lemma base_url_eq year month year' month' :
  base_url year month = base_url year' month' -> year = year' /\ month = month'.
Proof.
  unfold base_url. intros H. apply List.app_inv_head in H.
  change (txt "/" ++ ?r) with (47 :: r) in H.
  apply split_at_sep in H.
  - destruct H as [Hy Hm]. apply List.app_inv_tail in Hm.
    split; eapply zfill_inj; eassumption.
  - intros Hin. apply zfill_chars in Hin. lia.
  - intros Hin. apply zfill_chars in Hin. lia.
Qed.

(** X16: two different periods are never fetched from the same
    address. *)
Theorem base_url_distinct (year month year' month' : Z) :
  (year, month) <> (year', month') ->
  base_url year month <> base_url year' month'.
Proof.
  intros Hne H. apply base_url_eq in H. destruct H as [-> ->]. congruence.
Qed.

Lemma base_url_distinct_witness : base_url 2020 1 <> base_url 2020 10.
Proof. apply (base_url_distinct 2020 1 2020 10). discriminate. Defined.

(** ** The words of a plain text *)

Lemma split_go_lstrip s : Str.split_go None (Str.lstrip s) = Str.split_go None s.
Proof.
  induction s as [|c s IH]; [reflexivity|]. cbn [Str.lstrip Str.split_go].
  destruct (isspace c) eqn:E; [exact IH|]. cbn [Str.split_go]. rewrite E. reflexivity.
Qed.

Lemma split_go_rstrip s : forall cur,
  Str.split_go cur (Str.rstrip s) = Str.split_go cur s.
Proof.
  induction s as [|c s IH]; intros cur; [reflexivity|].
  destruct (isspace c) eqn:E.
  - cbn [Str.rstrip Str.split_go]. rewrite E, <- (IH None).
    destruct (Str.rstrip s) as [|x r]; [destruct cur; reflexivity|].
    cbn [Str.split_go]. rewrite E. reflexivity.
  - rewrite rstrip_cons_solid by exact E. cbn [Str.split_go]. rewrite E. apply IH.
Qed.

Lemma split_strip s : Str.split (Str.strip s) = Str.split s.
Proof. unfold Str.split, Str.strip. rewrite split_go_rstrip. apply split_go_lstrip. Qed.

Lemma split_go_collapse fuel : forall s prev cur,
  (List.length s < fuel)%nat ->
  Str.split_go cur (Re.sub_go fuel ws_plus [SP] prev s) = Str.split_go cur s.
Proof.
  induction fuel as [|fuel IH]; intros s prev cur Hlen; [lia|].
  cbn [Re.sub_go]. rewrite match_ws_plus. destruct s as [|c s]; [reflexivity|].
  simpl in Hlen. pose proof (lstrip_length s) as Hl. destruct (isspace c) eqn:E.
  - destruct (greedy_ws_accept s c) as (c' & -> & _).
    replace (List.length (Str.lstrip s) <? List.length (c :: s))%nat with true
      by (symmetry; apply Nat.ltb_lt; simpl; lia).
    change ([SP] ++ ?r) with (SP :: r). cbn [Str.split_go]. change (isspace SP) with true.
    cbv iota. rewrite E, IH by lia. rewrite split_go_lstrip. reflexivity.
  - cbn [Str.split_go]. rewrite E. apply IH. lia.
Qed.

Lemma split_collapse_ws s : Str.split (collapse_ws s) = Str.split s.
Proof. apply split_go_collapse. simpl. lia. Qed.

(** X17: on a text with no ampersand and no angle bracket in which, once
    its white space is collapsed, no boilerplate anchor phrase occurs,
    [_clean_text] only normalises white space: every run of white space
    becomes one space, the two ends are trimmed, and the words of the
    text, as [split] gives them, are unchanged. *)
Theorem clean_text_plain_keeps_words (x : text) :
  no_char AMP x = true -> no_char LT x = true ->
  no_anchor (collapse_ws x) = true ->
  _clean_text x = Str.strip (collapse_ws x)
  /\ single_spaced false (_clean_text x) = true
  /\ Str.split (_clean_text x) = Str.split x.
Proof.
  intros Ha Hl Hn.
  assert (H : _clean_text x = Str.strip (collapse_ws x)).
  { destruct x as [|c x]; [reflexivity|]. apply clean_text_plain; (assumption || discriminate). }
  rewrite H. split; [reflexivity|]. split.
  - apply (spaced_strip _ false), collapse_ws_spaced.
  - rewrite split_strip. apply split_collapse_ws.
Qed.

Lemma clean_text_plain_keeps_words_witness :
  _clean_text Sample.prose = Str.strip (collapse_ws Sample.prose)
  /\ single_spaced false (_clean_text Sample.prose) = true
  /\ Str.split (_clean_text Sample.prose) = Str.split Sample.prose.
Proof.
  apply (clean_text_plain_keeps_words Sample.prose); vm_compute; reflexivity.
Defined.

(** ** Idempotence of the normalizer *)

(** A match takes at least [min_len] characters. *)
Lemma run_min_len r : forall k prev s res,
  Re.run r k prev s = Some res ->
  exists w prev' s', s = w ++ s' /\ (min_len r <= List.length w)%nat
                     /\ k prev' s' = Some res.
Proof.
  induction r as [l|p|p|p| | |a IHa b IHb|a IHa b IHb]; cbn [Re.run min_len];
    intros k prev s res H.
  - destruct (lit_consumes _ _ _ _ _ H) as (p' & Hs & Hk).
    exists l, p', (List.skipn (List.length l) s). auto.
  - destruct s as [|c s]; [discriminate|]. destruct (p c) eqn:E; [|discriminate].
    exists [c], (Some c), s. auto.
  - destruct (star_greedy_consumes (fun _ => True) p (fun _ _ => I) k s prev res H)
      as (w & p' & s' & Hs & _ & Hk).
    exists w, p', s'. split; [exact Hs|]. split; [lia | exact Hk].
  - destruct (star_lazy_consumes (fun _ => True) p (fun _ _ => I) k s prev res H)
      as (w & p' & s' & Hs & _ & Hk).
    exists w, p', s'. split; [exact Hs|]. split; [lia | exact Hk].
  - destruct (Re.at_bol prev); [|discriminate]. exists [], prev, s. auto.
  - destruct (Re.at_eol s); [|discriminate]. exists [], prev, s. auto.
  - destruct (IHa _ _ _ _ H) as (w1 & p1 & s1 & -> & H1 & K1).
    destruct (IHb _ _ _ _ K1) as (w2 & p2 & s2 & -> & H2 & K2).
    exists (w1 ++ w2), p2, s2. rewrite <- List.app_assoc, List.length_app.
    split; [reflexivity|]. split; [lia | exact K2].
  - destruct (Re.run a k prev s) eqn:A.
    + inversion H; subst. destruct (IHa _ _ _ _ A) as (w & p' & s' & Hs & Hl & Hk).
      exists w, p', s'. split; [exact Hs|]. split; [lia | exact Hk].
    + destruct (IHb _ _ _ _ H) as (w & p' & s' & Hs & Hl & Hk).
      exists w, p', s'. split; [exact Hs|]. split; [lia | exact Hk].
Qed.

Lemma match_min_len r prev s prev' rest :
  Re.match_at r prev s = Some (prev', rest) ->
  (List.length rest + min_len r <= List.length s)%nat.
Proof.
  intros H. destruct (run_min_len r _ _ _ _ H) as (w & p & s' & -> & Hl & Hk).
  inversion Hk; subst. rewrite List.length_app. lia.
Qed.

(** A pattern that matches nowhere leaves the subject as it is. *)
Lemma sub_go_silent r repl : forall fuel prev s,
  fires_from r prev s = false -> Re.sub_go fuel r repl prev s = s.
Proof.
  induction fuel as [|fuel IH]; intros prev s H; [reflexivity|].
  cbn [Re.sub_go]. destruct s as [|c s]; cbn [fires_from] in H;
    destruct (Re.match_at r prev _); try discriminate; [reflexivity|].
  f_equal. apply IH. exact H.
Qed.

Lemma sub_silent r repl s : fires r s = false -> Re.sub r repl s = s.
Proof. apply sub_go_silent. Qed.

(** A rule that shrinks what it matches either finds nothing and
    leaves the subject as it is, or makes it shorter. *)
Lemma sub_go_shrinks r repl (Hr : (List.length repl < min_len r)%nat) :
  forall fuel prev s,
  (List.length s < fuel)%nat ->
  (fires_from r prev s = false /\ Re.sub_go fuel r repl prev s = s)
  \/ (List.length (Re.sub_go fuel r repl prev s) < List.length s)%nat.
Proof.
  induction fuel as [|fuel IH]; intros prev s Hf; [lia|].
  cbn [Re.sub_go].
  destruct (Re.match_at r prev s) as [[prev' rest]|] eqn:M.
  - right. pose proof (match_min_len _ _ _ _ _ M) as Hm.
    assert (L : (List.length rest <? List.length s)%nat = true)
      by (apply Nat.ltb_lt; lia).
    rewrite L, List.length_app.
    destruct (IH prev' rest ltac:(lia)) as [[_ ->] | Hlt]; lia.
  - destruct s as [|c s].
    + left. split; [|reflexivity]. cbn [fires_from]. rewrite M. reflexivity.
    + cbn [List.length] in Hf.
      destruct (IH (Some c) s ltac:(lia)) as [[Hq ->] | Hlt].
      * left. split; [|reflexivity]. cbn [fires_from]. rewrite M. exact Hq.
      * right. cbn [List.length]. lia.
Qed.

Lemma sub_shrinks r repl (Hr : (List.length repl < min_len r)%nat) s :
  (fires r s = false /\ Re.sub r repl s = s)
  \/ (List.length (Re.sub r repl s) < List.length s)%nat.
Proof. apply sub_go_shrinks; [exact Hr | lia]. Qed.

(** A rule whose replacement is no longer than what it matches does not
    make the subject longer. *)
Lemma sub_go_not_longer r repl
    (Hr : (List.length repl <= min_len r)%nat) (H1 : (1 <= min_len r)%nat) :
  forall fuel prev s,
  (List.length (Re.sub_go fuel r repl prev s) <= List.length s)%nat.
Proof.
  induction fuel as [|fuel IH]; intros prev s; [reflexivity|].
  cbn [Re.sub_go].
  destruct (Re.match_at r prev s) as [[prev' rest]|] eqn:M.
  - pose proof (match_min_len _ _ _ _ _ M) as Hm.
    assert (L : (List.length rest <? List.length s)%nat = true)
      by (apply Nat.ltb_lt; lia).
    rewrite L, List.length_app. specialize (IH prev' rest). lia.
  - destruct s as [|c s]; [reflexivity|]. cbn [List.length].
    specialize (IH (Some c) s). lia.
Qed.

Lemma apply_rules_silent rules : forall s,
  List.forallb (fun rule => negb (fires (fst rule) s)) rules = true ->
  apply_rules rules s = s.
Proof.
  induction rules as [|rule rules IH]; intros s H; [reflexivity|].
  cbn [List.forallb] in H. apply andb_prop in H. destruct H as [Hq Hrest].
  apply negb_true_iff in Hq.
  rewrite apply_rules_cons, (sub_silent _ _ _ Hq). apply IH. exact Hrest.
Qed.

(** A chain of shrinking rules either finds nothing to do, no rule
    matching anywhere in the subject, or makes the subject shorter. *)
Lemma apply_rules_shrinks rules (Hr : Forall shrinks rules) : forall s,
  (List.forallb (fun rule => negb (fires (fst rule) s)) rules = true
   /\ apply_rules rules s = s)
  \/ (List.length (apply_rules rules s) < List.length s)%nat.
Proof.
  induction Hr as [|rule rules Hrule Hrules IH]; intros s; [left; auto|].
  rewrite apply_rules_cons.
  destruct (sub_shrinks (fst rule) (snd rule) Hrule s) as [[Hq ->] | Hlt].
  - destruct (IH s) as [[Hall Hs] | Hlt]; [left | right; exact Hlt].
    split; [|exact Hs]. cbn [List.forallb]. rewrite Hq, Hall. reflexivity.
  - right. destruct (IH (Re.sub (fst rule) (snd rule) s)) as [[_ ->] | Hlt']; lia.
Qed.

Lemma shrinks_check rules :
  List.forallb (fun rule => (List.length (snd rule) <? min_len (fst rule))%nat) rules
  = true ->
  Forall shrinks rules.
Proof.
  intros H. apply List.Forall_forall. intros rule Hin.
  rewrite List.forallb_forall in H. apply Nat.ltb_lt. apply H. exact Hin.
Qed.

Lemma entity_rules_shrink : Forall shrinks entity_rules.
Proof. apply shrinks_check. vm_compute. reflexivity. Qed.

Lemma boilerplate_rules_shrink : Forall shrinks boilerplate_rules.
Proof. apply shrinks_check. vm_compute. reflexivity. Qed.

Lemma markup_rules_shrink : Forall shrinks markup_rules.
Proof. apply shrinks_check. vm_compute. reflexivity. Qed.

Lemma decode_as_rules s : decode_entities s = apply_rules entity_rules s.
Proof.
  unfold decode_entities, apply_rules, entity_rules, replace.
  generalize entity_table. intros table. revert s.
  induction table as [|e table IH]; intros s; [reflexivity|].
  cbn [List.map List.fold_left fst snd]. apply IH.
Qed.

Lemma ws_del_length s t : ws_del s t -> (List.length t <= List.length s)%nat.
Proof. induction 1; cbn [List.length]; lia. Qed.

Lemma ws_del_same_length s t :
  ws_del s t -> List.length t = List.length s -> t = s.
Proof.
  induction 1 as [|c s t H IH|c s t Hc H IH]; cbn [List.length]; intros Hl.
  - reflexivity.
  - f_equal. apply IH. lia.
  - apply ws_del_length in H. lia.
Qed.

Lemma settled_parts s :
  settled s = true <->
  single_spaced false s = true
  /\ List.forallb (fun rule => negb (fires (fst rule) s)) entity_rules = true
  /\ List.forallb (fun rule => negb (fires (fst rule) s)) boilerplate_rules = true
  /\ List.forallb (fun rule => negb (fires (fst rule) s)) markup_rules = true.
Proof.
  unfold settled, chain_rules. rewrite !List.forallb_app, !andb_true_iff. tauto.
Qed.

(** A pass that ends where it started has changed nothing on the way. *)
Lemma pass_fixed x t1 t2 t3 t4 t5 t6 :
  t1 = apply_rules entity_rules x ->
  t2 = collapse_ws t1 ->
  t3 = apply_rules boilerplate_rules t2 ->
  t4 = apply_rules markup_rules t3 ->
  t5 = collapse_blank t4 ->
  t6 = trim_lines t5 ->
  Str.strip t6 = x ->
  single_spaced false x = true
  /\ List.forallb (fun rule => negb (fires (fst rule) x)) entity_rules = true
  /\ List.forallb (fun rule => negb (fires (fst rule) x)) boilerplate_rules = true
  /\ List.forallb (fun rule => negb (fires (fst rule) x)) markup_rules = true
  /\ Str.strip x = x.
Proof.
  intros H1 H2 H3 H4 H5 H6 Hfix.
  assert (L7 : (List.length (Str.strip t6) <= List.length t6)%nat)
    by apply ws_del_length, strip_ws_del.
  assert (L6 : (List.length t6 <= List.length t5)%nat)
    by (rewrite H6; apply ws_del_length, trim_lines_ws_del).
  assert (L5 : (List.length t5 <= List.length t4)%nat).
  { rewrite H5. unfold collapse_blank, Re.sub.
    apply sub_go_not_longer; vm_compute; lia. }
  assert (L2 : (List.length t2 <= List.length t1)%nat).
  { rewrite H2. unfold collapse_ws, Re.sub.
    apply sub_go_not_longer; vm_compute; lia. }
  pose proof (apply_rules_shrinks _ entity_rules_shrink x) as D1.
  pose proof (apply_rules_shrinks _ boilerplate_rules_shrink t2) as D3.
  pose proof (apply_rules_shrinks _ markup_rules_shrink t3) as D4.
  rewrite <- H1 in D1. rewrite <- H3 in D3. rewrite <- H4 in D4.
  assert (Hlen : List.length (Str.strip t6) = List.length x) by (rewrite Hfix; reflexivity).
  assert (L1 : (List.length t1 <= List.length x)%nat)
    by (destruct D1 as [[_ E] | ?]; [rewrite E|]; lia).
  assert (L3 : (List.length t3 <= List.length t2)%nat)
    by (destruct D3 as [[_ E] | ?]; [rewrite E|]; lia).
  assert (L4 : (List.length t4 <= List.length t3)%nat)
    by (destruct D4 as [[_ E] | ?]; [rewrite E|]; lia).
  destruct D1 as [[Q1 E1] | D1]; [|lia].
  destruct D3 as [[Q3 E3] | D3]; [|lia].
  destruct D4 as [[Q4 E4] | D4]; [|lia].
  assert (Hsp : single_spaced false t2 = true)
    by (rewrite H2; apply collapse_ws_spaced).
  pose proof (spaced_no_nl _ _ Hsp) as Hnl.
  assert (E5 : t5 = t2).
  { rewrite H5, E4, E3. apply collapse_blank_quiet. exact Hnl. }
  assert (E6 : t6 = Str.strip t2).
  { rewrite H6, E5. apply trim_lines_no_nl. exact Hnl. }
  assert (E7 : Str.strip t2 = t2).
  { apply ws_del_same_length; [apply strip_ws_del|].
    pose proof Hlen as Hlen'. rewrite E6, strip_idem in Hlen'. lia. }
  assert (Ex : t2 = x).
  { rewrite <- Hfix, E6, strip_idem. symmetry. exact E7. }
  rewrite E3 in Q4. rewrite Ex in *. auto.
Qed.

Lemma clean_text_cons c y :
  _clean_text (c :: y) =
  Str.strip (trim_lines (collapse_blank (apply_rules markup_rules
    (apply_rules boilerplate_rules (collapse_ws (decode_entities (c :: y))))))).
Proof. unfold _clean_text. cbn [Str.truthy negb]. reflexivity. Qed.

(** The texts that a pass leaves as they are: the settled texts with no
    white space at either end. *)
Lemma clean_text_fixed_iff (y : text) :
  _clean_text y = y <-> settled y = true /\ Str.strip y = y.
Proof.
  rewrite settled_parts. split.
  - intros Hfix. destruct y as [|c y].
    { repeat split; vm_compute; reflexivity. }
    rewrite clean_text_cons, decode_as_rules in Hfix.
    pose proof (pass_fixed _ _ _ _ _ _ _ eq_refl eq_refl eq_refl eq_refl eq_refl eq_refl
                  Hfix) as H.
    tauto.
  - intros ((Hs & Q1 & Q3 & Q4) & Hstrip). destruct y as [|c y]; [reflexivity|].
    rewrite clean_text_cons.
    rewrite decode_as_rules, (apply_rules_silent _ _ Q1), (collapse_ws_id _ _ Hs),
      (apply_rules_silent _ _ Q3), (apply_rules_silent _ _ Q4).
    pose proof (spaced_no_nl _ _ Hs) as Hnl.
    rewrite (collapse_blank_quiet _ Hnl), (trim_lines_no_nl _ Hnl), strip_idem.
    exact Hstrip.
Qed.

(** C5, as the code has it: a second pass of [_clean_text] changes
    nothing exactly when the first pass left a settled text, one whose
    white space is single spaces only and in which no entity,
    boilerplate or markup pattern of the chain matches anywhere.  That
    covers the texts with a bare ampersand or a bare angle bracket and
    the texts that a boilerplate rule has cut. *)
Theorem clean_text_idempotent_iff_settled (x : text) :
  _clean_text (_clean_text x) = _clean_text x <-> settled (_clean_text x) = true.
Proof.
  rewrite clean_text_fixed_iff.
  pose proof (tidy_strip _ (clean_text_tidy x)) as Hstrip. tauto.
Qed.

Lemma clean_text_idempotent_iff_settled_witness :
  _clean_text (_clean_text Fixture.ampersands) = _clean_text Fixture.ampersands
  /\ _clean_text (_clean_text Fixture.comparison) = _clean_text Fixture.comparison
  /\ _clean_text (_clean_text Fixture.with_footer) = _clean_text Fixture.with_footer
  /\ _clean_text (_clean_text Fixture.shared) = _clean_text Fixture.shared.
Proof.
  split; [|split; [|split]].
  - apply (proj2 (clean_text_idempotent_iff_settled Fixture.ampersands)).
    vm_compute. reflexivity.
  - apply (proj2 (clean_text_idempotent_iff_settled Fixture.comparison)).
    vm_compute. reflexivity.
  - apply (proj2 (clean_text_idempotent_iff_settled Fixture.with_footer)).
    vm_compute. reflexivity.
  - apply (proj2 (clean_text_idempotent_iff_settled Fixture.shared)).
    vm_compute. reflexivity.
Defined.

(** Each part of [settled] is needed.  A first pass can leave an
    entity, a newline, two spaces in a row, a boilerplate phrase or a
    tag, and the second pass then changes the text. *)
Example clean_text_unsettled_outputs :
  (_clean_text (txt "&amp;nbsp;") = txt "&nbsp;"
   /\ _clean_text (txt "&nbsp;") = [])
  /\ (_clean_text (txt "a<p>b") = txt "a" ++ [NL] ++ txt "b"
      /\ _clean_text (txt "a" ++ [NL] ++ txt "b") = txt "a b")
  /\ (_clean_text (txt "a Share this: b") = txt "a  b"
      /\ _clean_text (txt "a  b") = txt "a b")
  /\ (_clean_text (txt "x Me<b>ta y") = txt "x Meta y"
      /\ _clean_text (txt "x Meta y") = txt "x")
  /\ (_clean_text (txt "x <<b>b> y") = txt "x <b> y"
      /\ _clean_text (txt "x <b> y") = txt "x  y").
Proof.
  split; [|split; [|split; [|split]]]; split; vm_compute; reflexivity.
Qed.
